(** * Option-Critic: the model, its exploration schedule and its two updates

    A shallow embedding of [option_critic.py].  Tensor entries are read as
    real numbers; a tensor carries its rank (0, 1 or 2) because the actor
    update squeezes and indexes, and the set of parameter groups its autograd
    graph reaches because the updates detach.  Python exceptions are the
    [Raise] results of an error monad, the two module instances live in a
    store addressed by reference, and the random generator is a component of
    that store which only the sampling calls advance. *)

From Stdlib Require Import Reals Lra Lia List Bool Arith.
Import ListNotations.

Local Open Scope R_scope.

(** ** Exceptions and the error monad *)

Inductive exn : Type :=
| IndexError
| ValueError
| RuntimeError
| ZeroDivisionError.

Inductive result (A : Type) : Type :=
| OK (a : A)
| Raise (e : exn).

Arguments OK {A} a.
Arguments Raise {A} e.

Definition bind {A B : Type} (r : result A) (k : A -> result B) : result B :=
  match r with
  | OK a => k a
  | Raise e => Raise e
  end.

Notation "x <- r ;; k" := (bind r (fun x => k))
  (at level 61, r at next level, right associativity).

Fixpoint mapM {A B : Type} (f : A -> result B) (l : list A) : result (list B) :=
  match l with
  | [] => OK []
  | a :: l' => b <- f a ;; bs <- mapM f l' ;; OK (b :: bs)
  end.

Definition of_option {A : Type} (e : exn) (o : option A) : result A :=
  match o with
  | Some a => OK a
  | None => Raise e
  end.

(** ** Lists of reals *)

Fixpoint zip_with {A B C : Type} (f : A -> B -> C) (xs : list A) (ys : list B)
  : list C :=
  match xs, ys with
  | x :: xs', y :: ys' => f x y :: zip_with f xs' ys'
  | _, _ => []
  end.

Definition rsum (xs : list R) : R := fold_right Rplus 0 xs.

Definition dot (xs ys : list R) : R := rsum (zip_with Rmult xs ys).

Fixpoint max_from (x : R) (xs : list R) : R :=
  match xs with
  | [] => x
  | y :: ys => Rmax x (max_from y ys)
  end.

(** [t.max(dim=-1)[0]] on one row; an empty row has nothing to reduce. *)
Definition row_max (xs : list R) : result R :=
  match xs with
  | [] => Raise IndexError
  | x :: xs' => OK (max_from x xs')
  end.

Definition sigmoid (x : R) : R := 1 / (1 + exp (- x)).

Definition softmax (xs : list R) : list R :=
  let z := rsum (map exp xs) in map (fun x => exp x / z) xs.

(** ** Tensors of rank at most two *)

Inductive tens : Type :=
| T0 (x : R)
| T1 (xs : list R)
| T2 (rows : list (list R)).

(** Broadcasting of two vectors: equal sizes pair up, a size of one is
    stretched, anything else is a size mismatch. *)
Definition bvec (f : R -> R -> R) (xs ys : list R) : result (list R) :=
  if Nat.eqb (length xs) (length ys) then OK (zip_with f xs ys)
  else match xs, ys with
       | [x], _ => OK (map (f x) ys)
       | _, [y] => OK (map (fun x => f x y) xs)
       | _, _ => Raise RuntimeError
       end.

Fixpoint zipM {A B C : Type} (f : A -> B -> result C) (xs : list A) (ys : list B)
  : result (list C) :=
  match xs, ys with
  | x :: xs', y :: ys' => c <- f x y ;; cs <- zipM f xs' ys' ;; OK (c :: cs)
  | _, _ => OK []
  end.

Definition brows (f : R -> R -> R) (r1 r2 : list (list R))
  : result (list (list R)) :=
  if Nat.eqb (length r1) (length r2) then zipM (bvec f) r1 r2
  else match r1, r2 with
       | [x], _ => mapM (bvec f x) r2
       | _, [y] => mapM (fun x => bvec f x y) r1
       | _, _ => Raise RuntimeError
       end.

(** An elementwise binary operation with broadcasting. *)
Definition tbin (f : R -> R -> R) (a b : tens) : result tens :=
  match a, b with
  | T0 x, T0 y => OK (T0 (f x y))
  | T0 x, T1 ys => OK (T1 (map (f x) ys))
  | T1 xs, T0 y => OK (T1 (map (fun x => f x y) xs))
  | T1 xs, T1 ys => v <- bvec f xs ys ;; OK (T1 v)
  | T0 x, T2 r => OK (T2 (map (map (f x)) r))
  | T2 r, T0 y => OK (T2 (map (map (fun x => f x y)) r))
  | T1 xs, T2 r => v <- mapM (bvec f xs) r ;; OK (T2 v)
  | T2 r, T1 ys => v <- mapM (fun x => bvec f x ys) r ;; OK (T2 v)
  | T2 r1, T2 r2 => v <- brows f r1 r2 ;; OK (T2 v)
  end.

Definition tmap (f : R -> R) (a : tens) : tens :=
  match a with
  | T0 x => T0 (f x)
  | T1 xs => T1 (map f xs)
  | T2 r => T2 (map (map f) r)
  end.

(** [t.sum()] *)
Definition tsum (a : tens) : R :=
  match a with
  | T0 x => x
  | T1 xs => rsum xs
  | T2 r => rsum (map rsum r)
  end.

(** [t.squeeze()]: every dimension of size one is dropped. *)
Definition squeeze (a : tens) : tens :=
  match a with
  | T0 x => T0 x
  | T1 [x] => T0 x
  | T1 xs => T1 xs
  | T2 [[x]] => T0 x
  | T2 [row] => T1 row
  | T2 rows =>
      match mapM (fun row => match row with [x] => OK x | _ => Raise ValueError end)
                 rows with
      | OK col => T1 col
      | Raise _ => T2 rows
      end
  end.

(** [t[i]] with an integer: a tensor of rank zero cannot be indexed. *)
Definition index (a : tens) (i : nat) : result tens :=
  match a with
  | T0 _ => Raise IndexError
  | T1 xs => x <- of_option IndexError (nth_error xs i) ;; OK (T0 x)
  | T2 r => row <- of_option IndexError (nth_error r i) ;; OK (T1 row)
  end.

(** [t[:, i]] *)
Definition column (a : tens) (i : nat) : result tens :=
  match a with
  | T2 r => col <- mapM (fun row => of_option IndexError (nth_error row i)) r ;;
            OK (T1 col)
  | _ => Raise IndexError
  end.

(** [t[arange(len(idx)), idx]] *)
Fixpoint gather (rows : list (list R)) (idx : list nat) : result (list R) :=
  match idx, rows with
  | [], _ => OK []
  | i :: idx', row :: rows' =>
      x <- of_option IndexError (nth_error row i) ;;
      xs <- gather rows' idx' ;;
      OK (x :: xs)
  | _ :: _, [] => Raise IndexError
  end.

Definition index_batch (a : tens) (idx : list nat) : result tens :=
  match a with
  | T2 r => v <- gather r idx ;; OK (T1 v)
  | _ => Raise IndexError
  end.

(** [t.max(dim=-1)[0]] *)
Definition max_last (a : tens) : result tens :=
  match a with
  | T0 x => OK (T0 x)
  | T1 xs => m <- row_max xs ;; OK (T0 m)
  | T2 r => ms <- mapM row_max r ;; OK (T1 ms)
  end.

Definition numel (a : tens) : nat :=
  match a with
  | T0 _ => 1%nat
  | T1 xs => length xs
  | T2 r => fold_right (fun row n => (length row + n)%nat) 0%nat r
  end.

(** [t.item()]: only a tensor of one element converts to a number. *)
Definition item (a : tens) : result R :=
  match a with
  | T0 x => OK x
  | T1 [x] => OK x
  | T2 [[x]] => OK x
  | _ => Raise ValueError
  end.

(** ** Autograd: tensors with the parameter groups their graph reaches *)

(** The two module instances the updates receive. *)
Inductive ref : Type := Live | Target.

(** The parameter groups of an [OptionCritic] module. *)
Inductive group : Type := Features | QHead | Terminations | OptionsW | OptionsB.

Definition pid : Type := (ref * group)%type.

Definition ref_eqb (a b : ref) : bool :=
  match a, b with
  | Live, Live | Target, Target => true
  | _, _ => false
  end.

Definition group_eqb (a b : group) : bool :=
  match a, b with
  | Features, Features | QHead, QHead | Terminations, Terminations
  | OptionsW, OptionsW | OptionsB, OptionsB => true
  | _, _ => false
  end.

Definition pid_eqb (p q : pid) : bool :=
  ref_eqb (fst p) (fst q) && group_eqb (snd p) (snd q).

Definition pid_mem (p : pid) (l : list pid) : bool := existsb (pid_eqb p) l.

Record ttensor : Type := Tensor { data : tens; graph : list pid }.

(** A tensor built from plain numbers requires no gradient. *)
Definition const (t : tens) : ttensor := Tensor t [].

(** [t.detach()] *)
Definition detach (t : ttensor) : ttensor := Tensor (data t) [].

Definition tt_map (f : R -> R) (a : ttensor) : ttensor :=
  Tensor (tmap f (data a)) (graph a).

Definition tt_bin (f : R -> R -> R) (a b : ttensor) : result ttensor :=
  v <- tbin f (data a) (data b) ;; OK (Tensor v (graph a ++ graph b)).

Definition tt_add := tt_bin Rplus.
Definition tt_sub := tt_bin Rminus.
Definition tt_mul := tt_bin Rmult.
Definition tt_min := tt_bin Rmin.

Definition tt_lift (f : tens -> result tens) (a : ttensor) : result ttensor :=
  v <- f (data a) ;; OK (Tensor v (graph a)).

(** ** Layers *)

Record Linear : Type := { weight : list (list R); bias : list R }.

(** One row through [nn.Linear]: output [j] is [weight[j] . x + bias[j]].
    The embedding and the layer's input side are both 512 wide by
    construction, so the products pair up entry by entry. *)
Definition linear_row (l : Linear) (x : list R) : list R :=
  zip_with (fun w b => dot w x + b) (weight l) (bias l).

Definition linear (l : Linear) (t : tens) : result tens :=
  match t with
  | T0 _ => Raise RuntimeError
  | T1 x => OK (T1 (linear_row l x))
  | T2 rows => OK (T2 (map (linear_row l) rows))
  end.

(** [x @ W] for one row [x] and a matrix [W] given by its rows, [n] columns. *)
Definition vecmat (n : nat) (x : list R) (W : list (list R)) : list R :=
  fold_right (fun xw acc => zip_with Rplus (map (Rmult (fst xw)) (snd xw)) acc)
             (repeat 0 n) (combine x W).

(** [torch.zeros] *)
Definition zeros1 (n : nat) : list R := repeat 0 n.
Definition zeros2 (m n : nat) : list (list R) := repeat (zeros1 n) m.
Definition zeros3 (k m n : nat) : list (list (list R)) := repeat (zeros2 m n) k.

Definition embed_dim : nat := 512.

(** ** Distributions *)

(** [Bernoulli(probs)]: building the distribution object draws nothing. *)
Record Bernoulli : Type := { b_probs : ttensor }.

(** [Categorical(probs)], one distribution per row; the constructor
    normalises each row by its sum. *)
Record Categorical : Type := { c_probs : list (list R); c_graph : list pid }.

Definition normalise (p : list R) : list R :=
  let z := rsum p in map (fun x => x / z) p.

Definition mk_Categorical (rows : list (list R)) (g : list pid) : Categorical :=
  {| c_probs := map normalise rows; c_graph := g |}.

Definition row_entropy (p : list R) : R := - rsum (map (fun x => x * ln x) p).

Definition row_log_prob (p : list R) (a : nat) : result R :=
  x <- of_option IndexError (nth_error p a) ;; OK (ln x).

Section OptionCriticModel.

(** Observations (stacked frames) and the state of the random generator are
    left abstract, as are the two sampling primitives that advance it. *)
Context {Obs RNG : Type}.
Context (sample_categorical : list R -> RNG -> nat * RNG).
Context (sample_bernoulli : R -> RNG -> bool * RNG).

(** ** The module *)

(** [features] is the convolutional pipeline with its current weights, seen
    as the function from one observation to its embedding. *)
Record OptionCritic : Type := {
  in_channels : nat;
  num_actions : nat;
  num_options : nat;
  testing : bool;
  eps_min : R;
  eps_start : R;
  eps_decay : R;
  eps_test : R;
  num_steps : nat;
  features : Obs -> list R;
  Q : Linear;
  terminations : Linear;
  options_W : list (list (list R));
  options_b : list (list R)
}.

(** [OptionCritic.__init__].  The three randomly initialised layers are
    taken as arguments; the intra-option policy bank starts at zero. *)
Definition OptionCritic_init (in_channels num_actions num_options : nat)
    (eps_start eps_min eps_decay eps_test : R) (testing : bool)
    (features0 : Obs -> list R) (Q0 terminations0 : Linear) : OptionCritic :=
  {| in_channels := in_channels;
     num_actions := num_actions;
     num_options := num_options;
     testing := testing;
     eps_min := eps_min;
     eps_start := eps_start;
     eps_decay := eps_decay;
     eps_test := eps_test;
     num_steps := 0;
     features := features0;
     Q := Q0;
     terminations := terminations0;
     options_W := zeros3 num_options embed_dim num_actions;
     options_b := zeros2 num_options num_actions |}.

Definition with_num_steps (m : OptionCritic) (n : nat) : OptionCritic :=
  {| in_channels := in_channels m; num_actions := num_actions m;
     num_options := num_options m; testing := testing m;
     eps_min := eps_min m; eps_start := eps_start m;
     eps_decay := eps_decay m; eps_test := eps_test m;
     num_steps := n;
     features := features m; Q := Q m; terminations := terminations m;
     options_W := options_W m; options_b := options_b m |}.

(** Copy the parameters of group [g] from [src] into [dst]. *)
Definition set_group (g : group) (src dst : OptionCritic) : OptionCritic :=
  {| in_channels := in_channels dst; num_actions := num_actions dst;
     num_options := num_options dst; testing := testing dst;
     eps_min := eps_min dst; eps_start := eps_start dst;
     eps_decay := eps_decay dst; eps_test := eps_test dst;
     num_steps := num_steps dst;
     features := match g with Features => features src | _ => features dst end;
     Q := match g with QHead => Q src | _ => Q dst end;
     terminations :=
       match g with Terminations => terminations src | _ => terminations dst end;
     options_W := match g with OptionsW => options_W src | _ => options_W dst end;
     options_b := match g with OptionsB => options_b src | _ => options_b dst end |}.

(** ** The store: both modules, the [.grad] slots, the generator *)

Record heap : Type := {
  modules : ref -> OptionCritic;
  has_grad : pid -> bool;
  gen : RNG
}.

Definition set_module (h : heap) (r : ref) (m : OptionCritic) : heap :=
  {| modules := fun r' => if ref_eqb r' r then m else modules h r';
     has_grad := has_grad h;
     gen := gen h |}.

Definition set_gen (h : heap) (g : RNG) : heap :=
  {| modules := modules h; has_grad := has_grad h; gen := g |}.

(** ** Methods *)

Definition get_state (h : heap) (self : ref) (obs : list Obs) : ttensor :=
  Tensor (T2 (map (features (modules h self)) obs)) [(self, Features)].

Definition get_Q (h : heap) (self : ref) (state : ttensor) : result ttensor :=
  v <- linear (Q (modules h self)) (data state) ;;
  OK (Tensor v (graph state ++ [(self, QHead)])).

Definition get_terminations (h : heap) (self : ref) (state : ttensor)
  : result ttensor :=
  v <- linear (terminations (modules h self)) (data state) ;;
  OK (Tensor (tmap sigmoid v) (graph state ++ [(self, Terminations)])).

(** Lines 75-76 of [get_action]: the batch of categorical distributions, and
    whether the state came with a batch dimension. *)
Definition action_dist (h : heap) (self : ref) (state : ttensor) (option : nat)
  : result (Categorical * bool) :=
  let m := modules h self in
  W <- of_option IndexError (nth_error (options_W m) option) ;;
  b <- of_option IndexError (nth_error (options_b m) option) ;;
  rows <- match data state with
          | T0 _ => Raise RuntimeError
          | T1 x => OK ([x], false)
          | T2 rows => OK (rows, true)
          end ;;
  logits <- mapM (fun x => bvec Rplus (vecmat (num_actions m) x W) b) (fst rows) ;;
  OK (mk_Categorical (map softmax logits)
        (graph state ++ [(self, OptionsW); (self, OptionsB)]),
      snd rows).

(** [action_dist.sample()]: one draw per row, each advancing the generator. *)
Fixpoint sample_rows (rows : list (list R)) (g : RNG) : list nat * RNG :=
  match rows with
  | [] => ([], g)
  | p :: rows' =>
      let '(a, g1) := sample_categorical p g in
      let '(acts, g2) := sample_rows rows' g1 in
      (a :: acts, g2)
  end.

Definition shaped (batched : bool) (xs : list R) : tens :=
  if batched then T1 xs
  else match xs with [x] => T0 x | _ => T1 xs end.

Definition get_action (h : heap) (self : ref) (state : ttensor) (option : nat)
  : result ((nat * ttensor * ttensor) * heap) :=
  d <- action_dist h self state option ;;
  let '(dist, batched) := d in
  let '(actions, g') := sample_rows (c_probs dist) (gen h) in
  logp <- zipM row_log_prob (c_probs dist) actions ;;
  let entropy := map row_entropy (c_probs dist) in
  action <- match actions with [a] => OK a | _ => Raise ValueError end ;;
  OK ((action,
       Tensor (shaped batched logp) (c_graph dist),
       Tensor (shaped batched entropy) (c_graph dist)),
      set_gen h g').

(** The [epsilon] property.  The division raises when [eps_decay] is zero. *)
Definition epsilon (h : heap) (self : ref) : result (R * heap) :=
  let m := modules h self in
  if negb (testing m) then
    if Req_dec_T (eps_decay m) 0 then Raise ZeroDivisionError
    else
      let eps := eps_min m + (eps_start m - eps_min m)
                             * exp (- INR (num_steps m) / eps_decay m) in
      OK (eps, set_module h self (with_num_steps m (num_steps m + 1)))
  else OK (eps_test m, h).

(** Index of the first largest entry, for [Q.argmax(dim=-1)]. *)
Fixpoint argmax_from (best : R) (ibest i : nat) (xs : list R) : nat :=
  match xs with
  | [] => ibest
  | x :: xs' =>
      if Rlt_dec best x then argmax_from x i (S i) xs'
      else argmax_from best ibest (S i) xs'
  end.

Definition row_argmax (xs : list R) : result nat :=
  match xs with
  | [] => Raise IndexError
  | x :: xs' => OK (argmax_from x 0 1 xs')
  end.

Fixpoint sample_bernoullis (ps : list R) (g : RNG) : list bool * RNG :=
  match ps with
  | [] => ([], g)
  | p :: ps' =>
      let '(b, g1) := sample_bernoulli p g in
      let '(bs, g2) := sample_bernoullis ps' g1 in
      (b :: bs, g2)
  end.

Definition predict_option_termination (h : heap) (self : ref) (state : ttensor)
    (current_option : nat) : result ((bool * nat) * heap) :=
  t <- get_terminations h self state ;;
  termination <- column (data t) current_option ;;
  let '(option_termination, g') :=
    sample_bernoullis (match termination with T1 ps => ps | _ => [] end) (gen h) in
  q <- get_Q h self state ;;
  next_option <- match data q with
                 | T0 _ => Raise IndexError
                 | T1 row => i <- row_argmax row ;; OK [i]
                 | T2 rows => mapM row_argmax rows
                 end ;;
  stop <- match option_termination with [b] => OK b | _ => Raise ValueError end ;;
  next <- match next_option with [i] => OK i | _ => Raise ValueError end ;;
  OK ((stop, next), set_gen h g').

Definition greedy_option (h : heap) (self : ref) (state : ttensor) : result nat :=
  q <- get_Q h self state ;;
  next_option <- match data q with
                 | T0 _ => Raise IndexError
                 | T1 row => i <- row_argmax row ;; OK [i]
                 | T2 rows => mapM row_argmax rows
                 end ;;
  match next_option with [i] => OK i | _ => Raise ValueError end.

(** ** The optimizer *)

(** An optimizer holds the parameters it was built over.  [rule] stands for
    its update: from a module it yields the module carrying the stepped
    values, of which [step] copies the groups that are bound and hold a
    gradient. *)
Record Optimizer : Type := {
  param_groups : list pid;
  rule : OptionCritic -> OptionCritic
}.

Definition all_groups : list group :=
  [Features; QHead; Terminations; OptionsW; OptionsB].

(** [optim.zero_grad()] *)
Definition zero_grad (optim : Optimizer) (h : heap) : heap :=
  {| modules := modules h;
     has_grad := fun p => if pid_mem p (param_groups optim) then false
                          else has_grad h p;
     gen := gen h |}.

(** [loss.backward()]: the loss must hold one element and require grad; the
    gradient lands on every parameter group its graph reaches. *)
Definition backward (loss : ttensor) (h : heap) : result heap :=
  if negb (Nat.eqb (numel (data loss)) 1) then Raise RuntimeError
  else match graph loss with
       | [] => Raise RuntimeError
       | _ :: _ =>
           OK {| modules := modules h;
                 has_grad := fun p => if pid_mem p (graph loss) then true
                                      else has_grad h p;
                 gen := gen h |}
       end.

Definition step_module (optim : Optimizer) (h : heap) (r : ref) : OptionCritic :=
  fold_right
    (fun g m =>
       if pid_mem (r, g) (param_groups optim) && has_grad h (r, g)
       then set_group g (rule optim (modules h r)) m
       else m)
    (modules h r) all_groups.

(** [optim.step()] *)
Definition step (optim : Optimizer) (h : heap) : heap :=
  {| modules := step_module optim h;
     has_grad := has_grad h;
     gen := gen h |}.

(** ** Hyperparameters and batches *)

Record Args : Type := {
  gamma : R;
  clip_delta : R;
  termination_reg : R;
  entropy_reg : R
}.

(** The five parallel sequences a replay sample unpacks into. *)
Record Batch : Type := {
  b_obs : list Obs;
  b_options : list nat;
  b_rewards : list R;
  b_next_obs : list Obs;
  b_dones : list bool
}.

Definition float_of_bool (b : bool) : R := if b then 1 else 0.

Definition to_tensor1 (obs : list Obs) : list Obs := obs.
Definition to_tensor2 (obs : Obs) : list Obs := [obs].

(** ** The critic update *)

(** [t.sum()] as a tensor of rank zero on the same graph. *)
Definition tt_sum (a : ttensor) : ttensor := Tensor (T0 (tsum (data a))) (graph a).

(** Lines 99-130 of [critic_loss]: the detached bootstrap target [y].  The
    products and sums are taken in the order Python parses them. *)
Definition critic_y (h : heap) (model model_prime : ref) (data_batch : Batch)
    (args : Args) : result ttensor :=
  let options := b_options data_batch in
  let rewards := const (T1 (b_rewards data_batch)) in
  let masks := const (T1 (map (fun d => 1 - float_of_bool d) (b_dones data_batch))) in
  let states := get_state h model (to_tensor1 (b_obs data_batch)) in
  let next_states := get_state h model (to_tensor1 (b_next_obs data_batch)) in
  let next_states_prime :=
    get_state h model_prime (to_tensor1 (b_next_obs data_batch)) in
  termination_probs <- get_terminations h model states ;;
  let termination_probs := detach termination_probs in
  options_term_prob <-
    tt_lift (fun t => index_batch t options) termination_probs ;;
  next_termination_probs <- get_terminations h model next_states ;;
  let next_termination_probs := detach next_termination_probs in
  next_options_term_prob <-
    tt_lift (fun t => index_batch t options) next_termination_probs ;;
  let termination_sample := {| b_probs := options_term_prob |} in
  Q_ <- get_Q h model states ;;
  next_Q <- get_Q h model next_states ;;
  next_Q_prime <- get_Q h model_prime next_states_prime ;;
  m1 <- tt_mul (tt_map (fun m => m * gamma args) masks)
               (tt_map (fun p => 1 - p) next_options_term_prob) ;;
  q_opt <- tt_lift (fun t => index_batch t options) next_Q_prime ;;
  m2 <- tt_mul m1 q_opt ;;
  s1 <- tt_add rewards m2 ;;
  q_max <- tt_lift max_last next_Q_prime ;;
  m3 <- tt_mul next_options_term_prob q_max ;;
  y <- tt_add s1 m3 ;;
  OK (detach y).

(** Lines 133-138: the clipped cost of each error, then its sum. *)
Definition clipped_cost (args : Args) (td_err : ttensor) : result ttensor :=
  let threshold :=
    tt_map (fun z => z + clip_delta args) (const (tmap (fun _ => 0) (data td_err))) in
  quadratic_part <- tt_min (tt_map Rabs td_err) threshold ;;
  excess <- tt_sub (tt_map Rabs td_err) quadratic_part ;;
  td_cost <- tt_add (tt_map (fun q => 0.5 * (q * q)) quadratic_part)
                    (tt_map (fun x => clip_delta args * x) excess) ;;
  OK (tt_sum td_cost).

Definition critic_td_err (h : heap) (model model_prime : ref) (data_batch : Batch)
    (args : Args) : result ttensor :=
  y <- critic_y h model model_prime data_batch args ;;
  Q_ <- get_Q h model (get_state h model (to_tensor1 (b_obs data_batch))) ;;
  q <- tt_lift (fun t => index_batch t (b_options data_batch)) Q_ ;;
  tt_sub y q.

Definition critic_loss (h : heap) (model model_prime : ref) (data_batch : Batch)
    (optim : Optimizer) (args : Args) : result (R * heap) :=
  td_err <- critic_td_err h model model_prime data_batch args ;;
  td_cost <- clipped_cost args td_err ;;
  let h1 := zero_grad optim h in
  h2 <- backward td_cost h1 ;;
  let h3 := step optim h2 in
  loss <- item (data td_cost) ;;
  OK (loss, h3).

(** ** The actor update *)

Definition tt_squeeze (a : ttensor) : ttensor := Tensor (squeeze (data a)) (graph a).

(** Lines 147-161 of [actor_loss]: the detached bootstrap target, together
    with the tensors the loss goes on to use. *)
Definition actor_y (h : heap) (obs : Obs) (option : nat) (reward : R) (done : bool)
    (next_obs : Obs) (model model_prime : ref) (args : Args)
  : result (ttensor * ttensor * ttensor) :=
  let state := get_state h model (to_tensor2 obs) in
  let next_state := get_state h model (to_tensor2 next_obs) in
  let next_state_prime := get_state h model_prime (to_tensor2 next_obs) in
  t <- get_terminations h model state ;;
  option_term_prob <- tt_lift (fun t => column t option) t ;;
  nt <- get_terminations h model next_state ;;
  next_option_term_prob <- tt_lift (fun t => column t option) nt ;;
  let next_option_term_prob := detach next_option_term_prob in
  Q_ <- get_Q h model state ;;
  let Q_ := tt_squeeze (detach Q_) in
  next_Q_prime <- get_Q h model_prime next_state_prime ;;
  let next_Q_prime := tt_squeeze (detach next_Q_prime) in
  let m1 := tt_map (fun p => (1 - float_of_bool done) * gamma args * (1 - p))
                   next_option_term_prob in
  q_opt <- tt_lift (fun t => index t option) next_Q_prime ;;
  m2 <- tt_mul m1 q_opt ;;
  let s1 := tt_map (fun x => reward + x) m2 in
  q_max <- tt_lift max_last next_Q_prime ;;
  m3 <- tt_mul next_option_term_prob q_max ;;
  y <- tt_add s1 m3 ;;
  OK (detach y, option_term_prob, Q_).

(** Line 163 *)
Definition termination_loss (args : Args) (option : nat)
    (option_term_prob Q_ : ttensor) : result ttensor :=
  q <- tt_lift (fun t => index t option) Q_ ;;
  q_max <- tt_lift max_last Q_ ;;
  d <- tt_sub q q_max ;;
  tt_mul option_term_prob (tt_map (fun x => x + termination_reg args) d).

(** Line 164 *)
Definition policy_loss (args : Args) (option : nat) (logp entropy y Q_ : ttensor)
  : result ttensor :=
  q <- tt_lift (fun t => index t option) Q_ ;;
  adv <- tt_sub y q ;;
  p <- tt_mul (tt_map Ropp logp) adv ;;
  tt_sub (tt_sum p) (tt_map (fun e => entropy_reg args * e) entropy).

Definition actor_loss (h : heap) (obs : Obs) (option : nat) (logp entropy : ttensor)
    (reward : R) (done : bool) (next_obs : Obs) (model model_prime : ref)
    (optim : Optimizer) (args : Args) : result (R * heap) :=
  r <- actor_y h obs option reward done next_obs model model_prime args ;;
  let '(y, option_term_prob, Q_) := r in
  tl <- termination_loss args option option_term_prob Q_ ;;
  pl <- policy_loss args option logp entropy y Q_ ;;
  loss <- tt_add tl pl ;;
  let h1 := zero_grad optim h in
  h2 <- backward loss h1 ;;
  let h3 := step optim h2 in
  v <- item (data loss) ;;
  OK (v, h3).

(** [n] successive reads of [epsilon], in the order they return. *)
Fixpoint epsilon_reads (n : nat) (h : heap) (self : ref) : result (list R) :=
  match n with
  | O => OK []
  | S n' =>
      r <- epsilon h self ;;
      es <- epsilon_reads n' (snd r) self ;;
      OK (fst r :: es)
  end.

(** The schedule as a function of the step counter. *)
Definition eps_at (m : OptionCritic) (k : nat) : R :=
  eps_min m + (eps_start m - eps_min m) * exp (- INR k / eps_decay m).

(** ** Concrete modules *)

(** A module whose layers have zero weights, so that its heads return their
    biases [qb] and [tb] on every observation: what the constructor yields
    when handed these initial layers, with the default schedule. *)
Definition flat_module (n_actions : nat) (qb tb : list R) : OptionCritic :=
  OptionCritic_init 4 n_actions (length qb) 1 (1/10) 1000000 (5/100) false
    (fun _ => zeros1 embed_dim)
    {| weight := zeros2 (length qb) embed_dim; bias := qb |}
    {| weight := zeros2 (length tb) embed_dim; bias := tb |}.

Definition flat_heap (live target : OptionCritic) (g : RNG) : heap :=
  {| modules := fun r => match r with Live => live | Target => target end;
     has_grad := fun _ => false;
     gen := g |}.

(** An optimizer over every parameter of the live module. *)
Definition live_optim (f : OptionCritic -> OptionCritic) : Optimizer :=
  {| param_groups := map (fun g => (Live, g)) all_groups; rule := f |}.

(** A rule that moves the option-value biases and nothing else. *)
Definition shift_Q (m : OptionCritic) : OptionCritic :=
  {| in_channels := in_channels m; num_actions := num_actions m;
     num_options := num_options m; testing := testing m;
     eps_min := eps_min m; eps_start := eps_start m;
     eps_decay := eps_decay m; eps_test := eps_test m;
     num_steps := num_steps m;
     features := features m;
     Q := {| weight := weight (Q m); bias := map (fun b => b + 1) (bias (Q m)) |};
     terminations := terminations m;
     options_W := options_W m; options_b := options_b m |}.

(** ** Transitions *)

Record Transition : Type := {
  t_obs : Obs;
  t_option : nat;
  t_reward : R;
  t_next_obs : Obs;
  t_done : bool
}.

(** The batch a list of stored transitions unpacks into. *)
Definition batch_of (ts : list Transition) : Batch :=
  {| b_obs := map t_obs ts;
     b_options := map t_option ts;
     b_rewards := map t_reward ts;
     b_next_obs := map t_next_obs ts;
     b_dones := map t_done ts |}.

(** What the heads of module [m] return on one observation. *)
Definition Q_row (m : OptionCritic) (o : Obs) : list R :=
  linear_row (Q m) (features m o).

Definition term_row (m : OptionCritic) (o : Obs) : list R :=
  map sigmoid (linear_row (terminations m) (features m o)).

Definition max_of (row : list R) : R :=
  match row with
  | [] => 0
  | x :: xs => max_from x xs
  end.

(** The number of outputs of a layer. *)
Definition width (l : Linear) : nat := Nat.min (length (weight l)) (length (bias l)).

(** ** The critic update, transition by transition *)

(** The number the code's target pipeline produces for one transition. *)
Definition y_value (live target : OptionCritic) (args : Args) (t : Transition) : R :=
  let ntp := nth (t_option t) (term_row live (t_next_obs t)) 0 in
  let q' := Q_row target (t_next_obs t) in
  t_reward t
  + (1 - float_of_bool (t_done t)) * gamma args * (1 - ntp) * nth (t_option t) q' 0
  + ntp * max_of q'.

(** The target as the specification words it: the mask and the discount
    multiply the whole mixture. *)
Definition spec_target (live target : OptionCritic) (args : Args) (t : Transition)
  : R :=
  let ntp := nth (t_option t) (term_row live (t_next_obs t)) 0 in
  let q' := Q_row target (t_next_obs t) in
  t_reward t
  + (1 - float_of_bool (t_done t)) * gamma args
    * ((1 - ntp) * nth (t_option t) q' 0 + ntp * max_of q').

(** An option every head involved can be indexed with. *)
Definition valid_option (h : heap) (model model_prime : ref) (o : nat) : Prop :=
  (o < width (terminations (modules h model)))%nat /\
  (o < width (Q (modules h model)))%nat /\
  (o < width (Q (modules h model_prime)))%nat.

Definition valid_batch (h : heap) (model model_prime : ref) (ts : list Transition)
  : Prop :=
  forall t, In t ts -> valid_option h model model_prime (t_option t).

(** The temporal-difference error and the cost the code computes for one
    transition. *)
Definition err_value (live target : OptionCritic) (args : Args) (t : Transition) : R :=
  y_value live target args t - nth (t_option t) (Q_row live (t_obs t)) 0.

Definition cost_value (c e : R) : R :=
  0.5 * (Rmin (Rabs e) (0 + c) * Rmin (Rabs e) (0 + c))
  + c * (Rabs e - Rmin (Rabs e) (0 + c)).

(** ** The actor update on one transition *)

(** A module whose layers and policy bank have the sizes [__init__] gives them. *)
Definition wf_module (m : OptionCritic) : Prop :=
  length (weight (Q m)) = num_options m /\
  length (bias (Q m)) = num_options m /\
  length (weight (terminations m)) = num_options m /\
  length (bias (terminations m)) = num_options m /\
  length (options_W m) = num_options m /\
  length (options_b m) = num_options m.

(** The single transition an actor update is called on. *)
Definition transition (obs : Obs) (option : nat) (reward : R) (done : bool)
    (next_obs : Obs) : Transition :=
  {| t_obs := obs; t_option := option; t_reward := reward;
     t_next_obs := next_obs; t_done := done |}.

(** A result of an update, with the generator of its store replaced. *)
Definition with_gen (g : RNG) (r : R * heap) : R * heap := (fst r, set_gen (snd r) g).

Definition rmap {A B : Type} (f : A -> B) (r : result A) : result B :=
  match r with
  | OK a => OK (f a)
  | Raise e => Raise e
  end.

(** ** A two-option and a one-option configuration *)

Definition demo_module : OptionCritic := flat_module 2 [1; 1] [0; 0].

Definition demo_heap (g : RNG) : heap := flat_heap demo_module demo_module g.

Definition single_module : OptionCritic := flat_module 2 [1] [0].

Definition single_heap (g : RNG) : heap := flat_heap single_module single_module g.

Definition demo_args : Args :=
  {| gamma := 1 / 2; clip_delta := 1; termination_reg := 1 / 100;
     entropy_reg := 1 / 100 |}.

(** ** Reads of the schedule, for the store they leave *)

(** [n] successive reads of [epsilon], keeping the store after the last. *)
Fixpoint epsilon_after (n : nat) (h : heap) (self : ref) : result heap :=
  match n with
  | O => OK h
  | S n' => r <- epsilon h self ;; epsilon_after n' (snd r) self
  end.

(** The learned parameters of a module, and its exploration settings. *)
Definition parameters (m : OptionCritic) :=
  (features m, Q m, terminations m, options_W m, options_b m).

Definition schedule (m : OptionCritic) :=
  (eps_min m, eps_start m, eps_decay m, eps_test m, testing m).

(** ** Basic facts *)

Lemma ref_eqb_refl (r : ref) : ref_eqb r r = true.
Proof. destruct r; reflexivity. Qed.

Lemma ref_eqb_eq (a b : ref) : ref_eqb a b = true <-> a = b.
Proof. destruct a, b; simpl; split; congruence. Qed.

Lemma modules_set_same (h : heap) (r : ref) (m : OptionCritic) :
  modules (set_module h r m) r = m.
Proof. simpl. now rewrite ref_eqb_refl. Qed.

Lemma modules_set_other (h : heap) (r r' : ref) (m : OptionCritic) :
  r' <> r -> modules (set_module h r m) r' = modules h r'.
Proof.
  intros Hne. simpl. destruct (ref_eqb r' r) eqn:E; [|reflexivity].
  apply ref_eqb_eq in E. contradiction.
Qed.

Lemma exp_le_1 (x : R) : x <= 0 -> exp x <= 1.
Proof.
  intros [Hlt | Heq].
  - left. rewrite <- exp_0. now apply exp_increasing.
  - subst. rewrite exp_0. lra.
Qed.

Lemma exp_mono (x y : R) : x <= y -> exp x <= exp y.
Proof.
  intros [Hlt | Heq].
  - left. now apply exp_increasing.
  - subst. lra.
Qed.

Lemma decay_arg_mono (d : R) (i j : nat) :
  0 < d -> (i <= j)%nat -> - INR j / d <= - INR i / d.
Proof.
  intros Hd Hij. apply le_INR in Hij.
  unfold Rdiv. apply Rmult_le_compat_r.
  - left. now apply Rinv_0_lt_compat.
  - lra.
Qed.

Lemma decay_arg_nonpos (d : R) (k : nat) : 0 < d -> - INR k / d <= 0.
Proof.
  intros Hd. pose proof (pos_INR k) as Hk.
  unfold Rdiv. assert (0 < / d) by now apply Rinv_0_lt_compat.
  nra.
Qed.

Lemma eps_at_antitone (m : OptionCritic) (i j : nat) :
  eps_min m <= eps_start m -> 0 < eps_decay m -> (i <= j)%nat ->
  eps_at m j <= eps_at m i.
Proof.
  intros Hle Hd Hij. unfold eps_at.
  pose proof (exp_mono _ _ (decay_arg_mono _ _ _ Hd Hij)) as He.
  nra.
Qed.

Lemma eps_at_range (m : OptionCritic) (k : nat) :
  eps_min m <= eps_start m -> 0 < eps_decay m ->
  eps_min m <= eps_at m k <= eps_start m.
Proof.
  intros Hle Hd. unfold eps_at.
  pose proof (exp_le_1 _ (decay_arg_nonpos _ k Hd)) as H1.
  pose proof (exp_pos (- INR k / eps_decay m)) as H0.
  nra.
Qed.

Lemma epsilon_train (h : heap) (self : ref) :
  testing (modules h self) = false -> eps_decay (modules h self) <> 0 ->
  epsilon h self =
  OK (eps_at (modules h self) (num_steps (modules h self)),
      set_module h self
        (with_num_steps (modules h self) (num_steps (modules h self) + 1))).
Proof.
  intros Ht Hd. unfold epsilon. rewrite Ht. simpl.
  destruct (Req_dec_T (eps_decay (modules h self)) 0) as [E | _]; [contradiction|].
  reflexivity.
Qed.

Lemma epsilon_eval (h : heap) (self : ref) :
  testing (modules h self) = true ->
  epsilon h self = OK (eps_test (modules h self), h).
Proof. intros Ht. unfold epsilon. now rewrite Ht. Qed.

Lemma epsilon_reads_train (n : nat) : forall (h : heap) (self : ref),
  testing (modules h self) = false -> eps_decay (modules h self) <> 0 ->
  epsilon_reads n h self =
  OK (map (fun k => eps_at (modules h self) (num_steps (modules h self) + k))
          (seq 0 n)).
Proof.
  induction n as [|n IH]; intros h self Ht Hd; [reflexivity|].
  cbn [epsilon_reads]. rewrite (epsilon_train h self Ht Hd). cbn [bind snd fst].
  rewrite IH; rewrite ?modules_set_same; auto.
  cbn [bind seq map]. rewrite Nat.add_0_r. do 2 f_equal.
  rewrite <- seq_shift, map_map. apply map_ext. intros k.
  cbn [with_num_steps num_steps]. unfold eps_at. cbn.
  replace (num_steps (modules h self) + 1 + k)%nat
    with (num_steps (modules h self) + S k)%nat by lia.
  reflexivity.
Qed.

Lemma epsilon_reads_eval (n : nat) (h : heap) (self : ref) :
  testing (modules h self) = true ->
  epsilon_reads n h self = OK (repeat (eps_test (modules h self)) n).
Proof.
  intros Ht. induction n as [|n IH]; [reflexivity|].
  cbn [epsilon_reads]. rewrite (epsilon_eval h self Ht). cbn [bind snd fst].
  rewrite IH. reflexivity.
Qed.

(** ** Lists, rows and broadcasting *)

Lemma zip_with_length {A B C : Type} (f : A -> B -> C) (xs : list A) :
  forall ys, length (zip_with f xs ys) = Nat.min (length xs) (length ys).
Proof.
  induction xs as [|x xs IH]; intros [|y ys]; simpl; auto.
Qed.

Lemma zip_with_map {A B C D : Type} (f : B -> C -> D) (g1 : A -> B) (g2 : A -> C)
    (l : list A) :
  zip_with f (map g1 l) (map g2 l) = map (fun a => f (g1 a) (g2 a)) l.
Proof. induction l as [|a l IH]; simpl; congruence. Qed.

Lemma bvec_map {A : Type} (f : R -> R -> R) (g1 g2 : A -> R) (l : list A) :
  bvec f (map g1 l) (map g2 l) = OK (map (fun a => f (g1 a) (g2 a)) l).
Proof.
  unfold bvec. rewrite !length_map, Nat.eqb_refl. now rewrite zip_with_map.
Qed.

Lemma linear_row_length (l : Linear) (x : list R) :
  length (linear_row l x) = width l.
Proof. unfold linear_row, width. apply zip_with_length. Qed.

Lemma gather_map {A : Type} (f : A -> list R) (o : A -> nat) (l : list A) :
  (forall a, In a l -> (o a < length (f a))%nat) ->
  gather (map f l) (map o l) = OK (map (fun a => nth (o a) (f a) 0) l).
Proof.
  induction l as [|a l IH]; intros Hin; [reflexivity|].
  cbn [map gather].
  destruct (nth_error (f a) (o a)) as [x|] eqn:E.
  - cbn [of_option bind]. rewrite IH by (intros; apply Hin; now right).
    cbn [bind]. now rewrite (nth_error_nth _ _ 0 E).
  - apply nth_error_None in E. specialize (Hin a (or_introl eq_refl)). lia.
Qed.

Lemma mapM_row_max_map {A : Type} (f : A -> list R) (l : list A) :
  (forall a, In a l -> (0 < length (f a))%nat) ->
  mapM row_max (map f l) = OK (map (fun a => max_of (f a)) l).
Proof.
  induction l as [|a l IH]; intros Hin; [reflexivity|].
  cbn [map mapM]. pose proof (Hin a (or_introl eq_refl)) as Ha.
  destruct (f a) as [|x xs] eqn:E; [simpl in Ha; lia|].
  cbn [row_max bind]. rewrite IH by (intros; apply Hin; now right).
  reflexivity.
Qed.

Lemma max_from_ge (x : R) (xs : list R) : x <= max_from x xs.
Proof.
  revert x. induction xs as [|y ys IH]; intros x; simpl; [lra|apply Rmax_l].
Qed.

(** ** The critic update, transition by transition: what it computes *)

Lemma tt_index_batch_map {A : Type} (f : A -> list R) (o : A -> nat)
    (l : list A) (g : list pid) :
  (forall a, In a l -> (o a < length (f a))%nat) ->
  tt_lift (fun t => index_batch t (map o l)) (Tensor (T2 (map f l)) g) =
  OK (Tensor (T1 (map (fun a => nth (o a) (f a) 0) l)) g).
Proof.
  intros Hin. unfold tt_lift. cbn [data index_batch graph].
  now rewrite gather_map.
Qed.

Lemma tt_max_last_map {A : Type} (f : A -> list R) (l : list A) (g : list pid) :
  (forall a, In a l -> (0 < length (f a))%nat) ->
  tt_lift max_last (Tensor (T2 (map f l)) g) =
  OK (Tensor (T1 (map (fun a => max_of (f a)) l)) g).
Proof.
  intros Hin. unfold tt_lift. cbn [data max_last graph].
  now rewrite mapM_row_max_map.
Qed.

Lemma tt_bin_map {A : Type} (f : R -> R -> R) (g1 g2 : A -> R) (l : list A)
    (ga gb : list pid) :
  tt_bin f (Tensor (T1 (map g1 l)) ga) (Tensor (T1 (map g2 l)) gb) =
  OK (Tensor (T1 (map (fun a => f (g1 a) (g2 a)) l)) (ga ++ gb)).
Proof.
  unfold tt_bin. cbn [data tbin graph]. now rewrite bvec_map.
Qed.

Lemma tt_map_map {A : Type} (f : R -> R) (g1 : A -> R) (l : list A)
    (ga : list pid) :
  tt_map f (Tensor (T1 (map g1 l)) ga) = Tensor (T1 (map (fun a => f (g1 a)) l)) ga.
Proof. unfold tt_map. cbn [data tmap graph]. now rewrite map_map. Qed.

Lemma term_row_length (m : OptionCritic) (o : Obs) :
  length (term_row m o) = width (terminations m).
Proof. unfold term_row. now rewrite length_map, linear_row_length. Qed.

Lemma Q_row_length (m : OptionCritic) (o : Obs) :
  length (Q_row m o) = width (Q m).
Proof. apply linear_row_length. Qed.

Lemma critic_y_value (h : heap) (model model_prime : ref) (ts : list Transition)
    (args : Args) :
  valid_batch h model model_prime ts ->
  critic_y h model model_prime (batch_of ts) args =
  OK (Tensor (T1 (map (y_value (modules h model) (modules h model_prime) args) ts))
             []).
Proof.
  intros Hv. unfold critic_y.
  cbn [get_terminations get_state get_Q linear bind data graph tmap detach
       to_tensor1 batch_of b_obs b_options b_rewards b_next_obs b_dones].
  rewrite !map_map.
  fold (Q_row (modules h model_prime)).
  change (fun x : Transition =>
            map sigmoid (linear_row (terminations (modules h model))
                           (features (modules h model) (t_obs x))))
    with (fun x : Transition => term_row (modules h model) (t_obs x)).
  change (fun x : Transition =>
            map sigmoid (linear_row (terminations (modules h model))
                           (features (modules h model) (t_next_obs x))))
    with (fun x : Transition => term_row (modules h model) (t_next_obs x)).
  change (fun x : Transition =>
            linear_row (Q (modules h model_prime))
              (features (modules h model_prime) (t_next_obs x)))
    with (fun x : Transition => Q_row (modules h model_prime) (t_next_obs x)).
  assert (Ht : forall o (a : Transition), In a ts ->
            (t_option a < length (term_row (modules h model) o))%nat)
    by (intros o a Ha; rewrite term_row_length; apply (Hv a Ha)).
  assert (Hq : forall o (a : Transition), In a ts ->
            (t_option a < length (Q_row (modules h model_prime) o))%nat)
    by (intros o a Ha; rewrite Q_row_length; apply (Hv a Ha)).
  unfold detach. cbn [data].
  rewrite !tt_index_batch_map by (intros; auto).
  cbn [bind]. unfold const, tt_mul, tt_add.
  rewrite !tt_map_map, tt_bin_map. cbn [bind].
  rewrite !tt_bin_map. cbn [bind].
  rewrite tt_max_last_map
    by (intros a Ha; specialize (Hq (t_next_obs a) a Ha); lia).
  cbn [bind]. rewrite !tt_bin_map. cbn [bind].
  rewrite tt_bin_map. cbn [bind data].
  reflexivity.
Qed.

Lemma critic_td_err_value (h : heap) (model model_prime : ref)
    (ts : list Transition) (args : Args) :
  valid_batch h model model_prime ts ->
  critic_td_err h model model_prime (batch_of ts) args =
  OK (Tensor (T1 (map (err_value (modules h model) (modules h model_prime) args) ts))
             [(model, Features); (model, QHead)]).
Proof.
  intros Hv. unfold critic_td_err. rewrite critic_y_value by assumption.
  cbn [bind get_Q get_state linear data graph to_tensor1 batch_of b_obs b_options].
  rewrite !map_map.
  change (fun x : Transition =>
            linear_row (Q (modules h model)) (features (modules h model) (t_obs x)))
    with (fun x : Transition => Q_row (modules h model) (t_obs x)).
  rewrite tt_index_batch_map
    by (intros a Ha; rewrite Q_row_length; apply (Hv a Ha)).
  cbn [bind]. unfold tt_sub. rewrite tt_bin_map. reflexivity.
Qed.

Lemma clipped_cost_map {A : Type} (args : Args) (e : A -> R) (l : list A)
    (g : list pid) :
  exists g', clipped_cost args (Tensor (T1 (map e l)) g) =
             OK (Tensor (T0 (rsum (map (fun a => cost_value (clip_delta args) (e a)) l)))
                        g')
             /\ forall p, In p g' <-> In p g.
Proof.
  unfold clipped_cost, const, tt_min, tt_sub, tt_add.
  cbn [data tmap]. rewrite !map_map. rewrite !tt_map_map.
  rewrite tt_bin_map. cbn [bind]. rewrite tt_bin_map. cbn [bind].
  rewrite !tt_map_map. rewrite tt_bin_map. cbn [bind].
  eexists. split; [reflexivity|].
  intros p. cbn [graph]. rewrite !in_app_iff. simpl. tauto.
Qed.

(** ** The clipped cost *)

Lemma cost_value_small (c e : R) :
  0 < c -> Rabs e <= c -> cost_value c e = 0.5 * (e * e).
Proof.
  intros Hc He. unfold cost_value.
  rewrite Rmin_left by lra.
  unfold Rabs. destruct (Rcase_abs e); lra.
Qed.

Lemma cost_value_large (c e : R) :
  0 < c -> c <= Rabs e -> cost_value c e = c * (Rabs e - 0.5 * c).
Proof.
  intros Hc He. unfold cost_value.
  rewrite Rmin_right by lra. lra.
Qed.

Lemma cost_value_nonneg (c e : R) : 0 < c -> 0 <= cost_value c e.
Proof.
  intros Hc. destruct (Rle_or_lt (Rabs e) c) as [Hs | Hl].
  - rewrite cost_value_small by assumption. nra.
  - rewrite cost_value_large by lra. nra.
Qed.

Lemma cost_value_zero (c e : R) : 0 < c -> (cost_value c e = 0 <-> e = 0).
Proof.
  intros Hc. split.
  - intros H0. destruct (Rle_or_lt (Rabs e) c) as [Hs | Hl].
    + rewrite cost_value_small in H0 by assumption. nra.
    + rewrite cost_value_large in H0 by lra. nra.
  - intros ->. rewrite cost_value_small; rewrite ?Rabs_R0; lra.
Qed.

Lemma rsum_cons (x : R) (xs : list R) : rsum (x :: xs) = x + rsum xs.
Proof. reflexivity. Qed.

Lemma rsum_nonneg {A : Type} (f : A -> R) (l : list A) :
  (forall a, 0 <= f a) -> 0 <= rsum (map f l).
Proof.
  intros Hf. induction l as [|a l IH]; cbn [map].
  - unfold rsum. simpl. lra.
  - rewrite rsum_cons. specialize (Hf a). lra.
Qed.

Lemma rsum_zero {A : Type} (f : A -> R) (l : list A) :
  (forall a, 0 <= f a) ->
  (rsum (map f l) = 0 <-> forall a, In a l -> f a = 0).
Proof.
  intros Hf. induction l as [|a l IH]; cbn [map].
  - split; [intros _ a []|reflexivity].
  - rewrite rsum_cons.
    pose proof (Hf a) as Ha. pose proof (rsum_nonneg f l Hf) as Hl. split.
    + intros Hs b [<- | Hb]; [lra|]. apply IH; [lra|assumption].
    + intros Hall. rewrite (Hall a (or_introl eq_refl)).
      assert (rsum (map f l) = 0)
        by (apply IH; intros b Hb; apply Hall; now right).
      lra.
Qed.

Lemma backward_scalar (x : R) (g : list pid) (p0 : pid) (h : heap) :
  In p0 g ->
  backward (Tensor (T0 x) g) h =
  OK {| modules := modules h;
        has_grad := fun p => if pid_mem p g then true else has_grad h p;
        gen := gen h |}.
Proof.
  intros Hin. unfold backward. cbn [data numel Nat.eqb negb graph].
  destruct g as [|q g]; [contradiction|reflexivity].
Qed.

(** On a batch whose options are valid the critic update returns, and its
    loss is the sum of the transitions' costs. *)
Lemma critic_loss_value (h : heap) (model model_prime : ref)
    (ts : list Transition) (optim : Optimizer) (args : Args) :
  valid_batch h model model_prime ts ->
  exists h',
    critic_loss h model model_prime (batch_of ts) optim args =
    OK (rsum (map (fun t => cost_value (clip_delta args)
                     (err_value (modules h model) (modules h model_prime) args t))
                  ts),
        h').
Proof.
  intros Hv. unfold critic_loss.
  rewrite critic_td_err_value by assumption. cbn [bind].
  destruct (clipped_cost_map args
              (err_value (modules h model) (modules h model_prime) args) ts
              [(model, Features); (model, QHead)]) as (g' & -> & Hg).
  cbn [bind].
  rewrite (backward_scalar _ g' (model, Features))
    by (apply Hg; now left).
  cbn [bind data item]. eexists. reflexivity.
Qed.

(** ** The actor update: ranks after squeezing *)

Lemma wf_width_Q (m : OptionCritic) : wf_module m -> width (Q m) = num_options m.
Proof. intros (H1 & H2 & _). unfold width. rewrite H1, H2. apply Nat.min_id. Qed.

Lemma wf_width_terminations (m : OptionCritic) :
  wf_module m -> width (terminations m) = num_options m.
Proof.
  intros (_ & _ & H1 & H2 & _). unfold width. rewrite H1, H2. apply Nat.min_id.
Qed.

Lemma squeeze_row_wide (row : list R) :
  (2 <= length row)%nat -> squeeze (T2 [row]) = T1 row.
Proof.
  destruct row as [|x [|y row]]; simpl; intros H; try lia; reflexivity.
Qed.

Lemma squeeze_row_single (row : list R) :
  length row = 1%nat -> exists x, squeeze (T2 [row]) = T0 x.
Proof.
  destruct row as [|x [|y row]]; simpl; intros H; try discriminate.
  now exists x.
Qed.

Lemma index_row (row : list R) (o : nat) :
  (o < length row)%nat -> index (T1 row) o = OK (T0 (nth o row 0)).
Proof.
  intros Ho. unfold index.
  destruct (nth_error row o) as [x|] eqn:E.
  - cbn [of_option bind]. now rewrite (nth_error_nth _ _ 0 E).
  - apply nth_error_None in E. lia.
Qed.

Lemma max_last_row (row : list R) :
  (0 < length row)%nat -> max_last (T1 row) = OK (T0 (max_of row)).
Proof. destruct row; simpl; intros H; [lia|reflexivity]. Qed.

Lemma column_row (row : list R) (o : nat) :
  (o < length row)%nat -> column (T2 [row]) o = OK (T1 [nth o row 0]).
Proof.
  intros Ho. unfold column. cbn [mapM].
  destruct (nth_error row o) as [x|] eqn:E.
  - cbn [of_option bind]. now rewrite (nth_error_nth _ _ 0 E).
  - apply nth_error_None in E. lia.
Qed.

Lemma actor_y_value (h : heap) (obs : Obs) (option : nat) (reward : R)
    (done : bool) (next_obs : Obs) (model model_prime : ref) (args : Args) :
  valid_option h model model_prime option ->
  (2 <= width (Q (modules h model)))%nat ->
  (2 <= width (Q (modules h model_prime)))%nat ->
  actor_y h obs option reward done next_obs model model_prime args =
  OK (Tensor (T1 [y_value (modules h model) (modules h model_prime) args
                    (transition obs option reward done next_obs)]) [],
      Tensor (T1 [nth option (term_row (modules h model) obs) 0])
             [(model, Features); (model, Terminations)],
      Tensor (T1 (Q_row (modules h model) obs)) []).
Proof.
  intros (Hot & Hoq & Hoq') Hw Hw'. unfold actor_y.
  cbn [get_terminations get_state get_Q linear bind data graph tmap to_tensor2 map].
  fold (term_row (modules h model) obs) (term_row (modules h model) next_obs)
       (Q_row (modules h model) obs) (Q_row (modules h model_prime) next_obs).
  unfold tt_lift, tt_squeeze, detach. cbn [data graph].
  rewrite !column_row by (rewrite term_row_length; assumption).
  cbn [bind data graph].
  rewrite !squeeze_row_wide by (rewrite Q_row_length; assumption).
  rewrite index_row by (rewrite Q_row_length; assumption).
  cbn [bind]. unfold tt_mul, tt_add, tt_bin, tt_map. cbn [data graph tmap map tbin bind].
  rewrite max_last_row by (rewrite Q_row_length; lia).
  cbn [bind data graph tbin map bvec length Nat.eqb zip_with app].
  unfold y_value, transition. cbn [t_reward t_done t_option t_next_obs].
  reflexivity.
Qed.

Lemma backward_single (x : R) (g : list pid) (p0 : pid) (h : heap) :
  In p0 g ->
  backward (Tensor (T1 [x]) g) h =
  OK {| modules := modules h;
        has_grad := fun p => if pid_mem p g then true else has_grad h p;
        gen := gen h |}.
Proof.
  intros Hin. unfold backward. cbn [data numel length Nat.eqb negb graph].
  destruct g as [|q g]; [contradiction|reflexivity].
Qed.

(** With at least two options the actor update returns, and its loss is the
    termination term plus the policy term. *)
Lemma actor_loss_value (h : heap) (obs : Obs) (option : nat) (lp en : R)
    (gl ge : list pid) (reward : R) (done : bool) (next_obs : Obs)
    (model model_prime : ref) (optim : Optimizer) (args : Args) :
  valid_option h model model_prime option ->
  (2 <= width (Q (modules h model)))%nat ->
  (2 <= width (Q (modules h model_prime)))%nat ->
  let live := modules h model in
  let y := y_value live (modules h model_prime) args
             (transition obs option reward done next_obs) in
  let q := nth option (Q_row live obs) 0 in
  exists h',
    actor_loss h obs option (Tensor (T1 [lp]) gl) (Tensor (T1 [en]) ge)
      reward done next_obs model model_prime optim args =
    OK (nth option (term_row live obs) 0
          * (q - max_of (Q_row live obs) + termination_reg args)
        + (- lp * (y - q) - entropy_reg args * en),
        h').
Proof.
  intros Hv Hw Hw' live y q. unfold actor_loss.
  rewrite actor_y_value by assumption. cbn [bind].
  destruct Hv as (Hot & Hoq & Hoq').
  unfold termination_loss, policy_loss, tt_lift. cbn [data graph].
  rewrite !index_row by (rewrite Q_row_length; assumption).
  rewrite max_last_row by (rewrite Q_row_length; lia).
  unfold tt_sub, tt_mul, tt_add, tt_bin, tt_map, tt_sum.
  cbn [bind data graph tbin tmap map bvec length Nat.eqb zip_with tsum].
  rewrite (backward_single _ _ (model, Features)) by (simpl; auto).
  cbn [bind item data]. eexists. do 2 f_equal.
  fold live. fold q. fold y. unfold rsum. simpl. lra.
Qed.

Lemma column_raise (t : tens) (o : nat) (e : exn) :
  column t o = Raise e -> e = IndexError.
Proof.
  destruct t as [x|xs|rows]; simpl; try congruence.
  assert (H : forall e', mapM (fun row => of_option IndexError (nth_error row o)) rows
                         = Raise e' -> e' = IndexError).
  { induction rows as [|row rows IH]; simpl; [discriminate|].
    intros e'. destruct (nth_error row o); simpl; [|congruence].
    destruct (mapM _ rows); simpl; [discriminate|].
    intros H. inversion H; subst. now apply IH. }
  destruct (mapM _ rows) eqn:E; simpl; [discriminate|].
  intros H'. inversion H'; subst. now apply H.
Qed.

(** With a single option the squeezed target values have rank zero, and the
    actor update stops at [next_Q_prime[option]]. *)
Lemma actor_y_single_option (h : heap) (obs : Obs) (option : nat) (reward : R)
    (done : bool) (next_obs : Obs) (model model_prime : ref) (args : Args) :
  width (Q (modules h model_prime)) = 1%nat ->
  actor_y h obs option reward done next_obs model model_prime args =
  Raise IndexError.
Proof.
  intros Hw. unfold actor_y.
  cbn [get_terminations get_state get_Q linear bind data graph tmap to_tensor2 map].
  unfold tt_lift. cbn [data graph].
  destruct (column _ option) as [c1|e1] eqn:E1; cbn [bind];
    [|now rewrite (column_raise _ _ _ E1)].
  destruct (column _ option) as [c2|e2] eqn:E2 in |- *; cbn [bind];
    [|now rewrite (column_raise _ _ _ E2)].
  unfold tt_squeeze, detach. cbn [data graph].
  destruct (squeeze_row_single
              (linear_row (Q (modules h model_prime))
                 (features (modules h model_prime) next_obs))) as [x Hx].
  { now rewrite linear_row_length. }
  rewrite Hx. reflexivity.
Qed.

(** ** Where gradients can flow *)

Ltac inv_bind H :=
  repeat match type of H with
         | bind ?r _ = OK _ =>
             let E := fresh "E" in
             destruct r eqn:E; cbn [bind] in H; [|discriminate H]
         end.

Lemma pid_eqb_eq (p q : pid) : pid_eqb p q = true <-> p = q.
Proof.
  destruct p as [r g], q as [r' g']. unfold pid_eqb. cbn [fst snd].
  destruct r, r', g, g'; simpl; split; congruence.
Qed.

Lemma pid_mem_In (p : pid) (l : list pid) : pid_mem p l = true <-> In p l.
Proof.
  unfold pid_mem. rewrite existsb_exists. split.
  - intros (q & Hq & E). apply pid_eqb_eq in E. now subst.
  - intros Hin. exists p. split; [assumption|]. now apply pid_eqb_eq.
Qed.

Lemma pid_mem_false (p : pid) (l : list pid) : ~ In p l -> pid_mem p l = false.
Proof.
  intros Hn. destruct (pid_mem p l) eqn:E; [|reflexivity].
  apply pid_mem_In in E. contradiction.
Qed.

Lemma tt_bin_graph (f : R -> R -> R) (a b c : ttensor) :
  tt_bin f a b = OK c -> graph c = graph a ++ graph b.
Proof.
  unfold tt_bin. intros H. inv_bind H. inversion H. reflexivity.
Qed.

Lemma tt_lift_graph (f : tens -> result tens) (a c : ttensor) :
  tt_lift f a = OK c -> graph c = graph a.
Proof.
  unfold tt_lift. intros H. inv_bind H. inversion H. reflexivity.
Qed.

Lemma get_Q_graph (h : heap) (self : ref) (state q : ttensor) :
  get_Q h self state = OK q -> graph q = graph state ++ [(self, QHead)].
Proof.
  unfold get_Q. intros H. inv_bind H. inversion H. reflexivity.
Qed.

Lemma critic_y_graph (h : heap) (model model_prime : ref) (data_batch : Batch)
    (args : Args) (y : ttensor) :
  critic_y h model model_prime data_batch args = OK y -> graph y = [].
Proof.
  unfold critic_y. intros H. inv_bind H. inversion H. reflexivity.
Qed.

Lemma critic_td_err_graph (h : heap) (model model_prime : ref) (data_batch : Batch)
    (args : Args) (td : ttensor) :
  critic_td_err h model model_prime data_batch args = OK td ->
  graph td = [(model, Features); (model, QHead)].
Proof.
  unfold critic_td_err. intros H. inv_bind H.
  apply tt_bin_graph in H. apply critic_y_graph in E.
  apply tt_lift_graph in E1. apply get_Q_graph in E0.
  rewrite H, E, E1, E0. reflexivity.
Qed.

Lemma clipped_cost_graph (args : Args) (td c : ttensor) :
  clipped_cost args td = OK c ->
  (exists x, data c = T0 x) /\ forall p, In p (graph c) <-> In p (graph td).
Proof.
  unfold clipped_cost. intros H. inv_bind H. inversion H; subst c. clear H.
  apply tt_bin_graph in E, E0, E1. split; [now eexists|].
  intros p. cbn [tt_sum graph]. rewrite E1. cbn [tt_map graph].
  rewrite E0, E. cbn [tt_map const graph].
  rewrite !in_app_iff. simpl. tauto.
Qed.

Lemma backward_inv (loss : ttensor) (h h2 : heap) :
  backward loss h = OK h2 ->
  modules h2 = modules h /\ gen h2 = gen h /\
  has_grad h2 = (fun p => if pid_mem p (graph loss) then true else has_grad h p).
Proof.
  unfold backward. destruct (negb _); [discriminate|].
  destruct (graph loss); [discriminate|].
  intros H. inversion H. auto.
Qed.

Lemma step_module_unbound (optim : Optimizer) (h : heap) (r : ref) :
  (forall g, ~ In (r, g) (param_groups optim)) ->
  step_module optim h r = modules h r.
Proof.
  intros Hn. unfold step_module, all_groups. cbn [fold_right].
  rewrite !pid_mem_false by apply Hn. reflexivity.
Qed.

Lemma critic_loss_inv (h : heap) (model model_prime : ref) (data_batch : Batch)
    (optim : Optimizer) (args : Args) (loss : R) (h' : heap) :
  critic_loss h model model_prime data_batch optim args = OK (loss, h') ->
  exists td c h2,
    critic_td_err h model model_prime data_batch args = OK td /\
    clipped_cost args td = OK c /\
    backward c (zero_grad optim h) = OK h2 /\
    h' = step optim h2.
Proof.
  unfold critic_loss. intros H. inv_bind H. inversion H; subst.
  eauto 8.
Qed.

(** The generator enters the critic update nowhere and leaves it as it came. *)
Lemma critic_loss_set_gen (h : heap) (model model_prime : ref) (data_batch : Batch)
    (optim : Optimizer) (args : Args) (g : RNG) :
  critic_loss (set_gen h g) model model_prime data_batch optim args =
  rmap (with_gen g) (critic_loss h model model_prime data_batch optim args).
Proof.
  unfold critic_loss.
  change (critic_td_err (set_gen h g) model model_prime data_batch args)
    with (critic_td_err h model model_prime data_batch args).
  destruct (critic_td_err h model model_prime data_batch args) as [td|e];
    [cbn [bind]|reflexivity].
  destruct (clipped_cost args td) as [c|e]; [cbn [bind]|reflexivity].
  unfold backward.
  destruct (negb _); [reflexivity|].
  destruct (graph c); [reflexivity|]. cbn [bind].
  destruct (item (data c)); reflexivity.
Qed.

(** ** The policy bank of a fresh module *)

Lemma zip_plus_zeros (a : R) (n : nat) :
  zip_with Rplus (map (Rmult a) (repeat 0 n)) (repeat 0 n) = repeat 0 n.
Proof. induction n as [|n IH]; simpl; [reflexivity|]. f_equal; [lra|exact IH]. Qed.

Lemma vecmat_zeros (n : nat) (x : list R) :
  forall d, vecmat n x (zeros2 d n) = zeros1 n.
Proof.
  unfold vecmat, zeros2, zeros1.
  induction x as [|a x IH]; intros [|d]; cbn [repeat combine fold_right];
    try reflexivity.
  rewrite IH. cbn [fst snd]. apply zip_plus_zeros.
Qed.

Lemma bvec_plus_zeros (n : nat) : bvec Rplus (zeros1 n) (zeros1 n) = OK (zeros1 n).
Proof.
  unfold bvec, zeros1. rewrite Nat.eqb_refl. f_equal.
  induction n as [|n IH]; simpl; [reflexivity|]. f_equal; [lra|exact IH].
Qed.

Lemma rsum_repeat (a : R) (n : nat) : rsum (repeat a n) = INR n * a.
Proof.
  induction n as [|n IH]; [unfold rsum; simpl; lra|].
  cbn [repeat]. rewrite rsum_cons, IH, S_INR. lra.
Qed.

Lemma softmax_zeros (n : nat) : softmax (zeros1 n) = repeat (1 / INR n) n.
Proof.
  unfold softmax, zeros1. rewrite !map_repeat, rsum_repeat, exp_0.
  now rewrite Rmult_1_r.
Qed.

Lemma INR_pos (n : nat) : (1 <= n)%nat -> 0 < INR n.
Proof. intros Hn. apply lt_0_INR. lia. Qed.

Lemma normalise_uniform (n : nat) :
  (1 <= n)%nat -> normalise (repeat (1 / INR n) n) = repeat (1 / INR n) n.
Proof.
  intros Hn. pose proof (INR_pos n Hn) as Hp.
  unfold normalise. rewrite map_repeat, rsum_repeat. f_equal.
  field. lra.
Qed.

Lemma row_entropy_uniform (n : nat) :
  (1 <= n)%nat -> row_entropy (repeat (1 / INR n) n) = ln (INR n).
Proof.
  intros Hn. pose proof (INR_pos n Hn) as Hp.
  unfold row_entropy. rewrite map_repeat, rsum_repeat.
  unfold Rdiv. rewrite Rmult_1_l, ln_Rinv by assumption.
  field. lra.
Qed.

Lemma mapM_const {A B : Type} (f : A -> result B) (b : B) (l : list A) :
  (forall a, f a = OK b) -> mapM f l = OK (map (fun _ => b) l).
Proof.
  intros Hf. induction l as [|a l IH]; [reflexivity|].
  cbn [mapM map]. rewrite Hf, IH. reflexivity.
Qed.

(** On a fresh module every row of the action distribution is uniform. *)
Lemma action_dist_fresh (h : heap) (self : ref) (rows : list (list R))
    (g : list pid) (option : nat)
    (ic na no : nat) (es em ed et : R) (tst : bool)
    (f0 : Obs -> list R) (Q0 T0 : Linear) :
  modules h self = OptionCritic_init ic na no es em ed et tst f0 Q0 T0 ->
  (option < no)%nat -> (1 <= na)%nat ->
  action_dist h self (Tensor (T2 rows) g) option =
  OK (mk_Categorical (map (fun _ => repeat (1 / INR na) na) rows)
        (g ++ [(self, OptionsW); (self, OptionsB)]),
      true).
Proof.
  intros Hm Ho Hn. unfold action_dist. rewrite Hm.
  cbn [OptionCritic_init options_W options_b num_actions data graph].
  unfold zeros3. change (zeros2 no na) with (repeat (zeros1 na) no).
  rewrite !nth_error_repeat by assumption.
  cbn [of_option bind fst snd].
  rewrite (mapM_const _ (zeros1 na))
    by (intros x; rewrite vecmat_zeros; apply bvec_plus_zeros).
  cbn [bind]. rewrite map_map, softmax_zeros. reflexivity.
Qed.

Lemma c_probs_uniform (rows : list (list R)) (g : list pid) (n : nat) :
  (1 <= n)%nat ->
  c_probs (mk_Categorical (map (fun _ => repeat (1 / INR n) n) rows) g) =
  map (fun _ => repeat (1 / INR n) n) rows.
Proof.
  intros Hn. unfold mk_Categorical. cbn [c_probs]. rewrite map_map.
  apply map_ext. intros _. now apply normalise_uniform.
Qed.

Lemma get_action_fresh (h : heap) (self : ref) (x : list R) (g : list pid)
    (option : nat) (ic na no : nat) (es em ed et : R) (tst : bool)
    (f0 : Obs -> list R) (Q0 T0 : Linear) :
  modules h self = OptionCritic_init ic na no es em ed et tst f0 Q0 T0 ->
  (option < no)%nat -> (1 <= na)%nat ->
  let uniform := repeat (1 / INR na) na in
  let draw := sample_categorical uniform (gen h) in
  get_action h self (Tensor (T2 [x]) g) option =
  (logp <- row_log_prob uniform (fst draw) ;;
   OK ((fst draw,
        Tensor (T1 [logp]) (g ++ [(self, OptionsW); (self, OptionsB)]),
        Tensor (T1 [ln (INR na)]) (g ++ [(self, OptionsW); (self, OptionsB)])),
       set_gen h (snd draw))).
Proof.
  intros Hm Ho Hn uniform draw. unfold get_action.
  rewrite (action_dist_fresh h self [x] g option ic na no es em ed et tst f0 Q0 T0)
    by assumption.
  cbn [bind]. rewrite c_probs_uniform by assumption.
  cbn [map sample_rows]. fold uniform. fold draw.
  destruct draw as [a g1]. cbn [fst snd zipM].
  destruct (row_log_prob uniform a) as [lp|e]; [|reflexivity].
  cbn [bind shaped c_graph mk_Categorical]. unfold uniform.
  now rewrite row_entropy_uniform.
Qed.

(** ** Modules with zero weights *)

Lemma dot_zeros (d : nat) : forall x, dot (zeros1 d) x = 0.
Proof.
  unfold dot, zeros1. induction d as [|d IH]; intros [|a x]; cbn [repeat zip_with];
    try reflexivity.
  rewrite rsum_cons, IH. lra.
Qed.

Lemma linear_row_flat (d : nat) (b x : list R) :
  linear_row {| weight := zeros2 (length b) d; bias := b |} x = b.
Proof.
  unfold linear_row, zeros2. cbn [weight bias].
  induction b as [|y b IH]; [reflexivity|].
  cbn [length repeat zip_with]. rewrite IH, dot_zeros. f_equal. lra.
Qed.

Lemma Q_row_flat (na : nat) (qb tb : list R) (o : Obs) :
  Q_row (flat_module na qb tb) o = qb.
Proof. unfold Q_row, flat_module. cbn [OptionCritic_init Q features]. apply linear_row_flat. Qed.

Lemma term_row_flat (na : nat) (qb tb : list R) (o : Obs) :
  term_row (flat_module na qb tb) o = map sigmoid tb.
Proof.
  unfold term_row, flat_module. cbn [OptionCritic_init terminations features].
  now rewrite linear_row_flat.
Qed.

Lemma width_Q_flat (na : nat) (qb tb : list R) :
  width (Q (flat_module na qb tb)) = length qb.
Proof.
  unfold width, flat_module, zeros2. cbn [OptionCritic_init Q weight bias].
  rewrite repeat_length. apply Nat.min_id.
Qed.

Lemma width_terminations_flat (na : nat) (qb tb : list R) :
  width (terminations (flat_module na qb tb)) = length tb.
Proof.
  unfold width, flat_module, zeros2. cbn [OptionCritic_init terminations weight bias].
  rewrite repeat_length. apply Nat.min_id.
Qed.

Lemma sigmoid_0 : sigmoid 0 = 1 / 2.
Proof. unfold sigmoid. rewrite Ropp_0, exp_0. lra. Qed.

Lemma y_value_done (live target : OptionCritic) (args : Args) (t : Transition) :
  t_done t = true ->
  y_value live target args t =
  t_reward t + nth (t_option t) (term_row live (t_next_obs t)) 0
               * max_of (Q_row target (t_next_obs t)).
Proof. intros Hd. unfold y_value. rewrite Hd. cbn [float_of_bool]. lra. Qed.

(** ** Successive reads *)

Lemma nth_map_seq (f : nat -> R) (n j : nat) (d : R) :
  (j < n)%nat -> nth j (map f (seq 0 n)) d = f j.
Proof.
  intros Hj. rewrite (nth_indep _ d (f 0%nat)) by now rewrite length_map, length_seq.
  rewrite map_nth, seq_nth by assumption. reflexivity.
Qed.

(** * The claims *)

(** C3: with a positive [clip_delta], the cost of a transition whose
    temporal-difference error is [e] is [0.5*e^2] when [|e| <= clip_delta]
    and [clip_delta*(|e| - 0.5*clip_delta)] when [|e| >= clip_delta], the two
    agreeing at the threshold; the critic update returns the sum of these
    costs over the batch, which is never negative and is zero exactly when
    every predicted value equals its target. *)
Theorem critic_loss_is_clipped_sum (h : heap) (model model_prime : ref)
    (ts : list Transition) (optim : Optimizer) (args : Args) :
  0 < clip_delta args ->
  valid_batch h model model_prime ts ->
  let c := clip_delta args in
  let live := modules h model in
  let target := modules h model_prime in
  let contribution t := cost_value c (err_value live target args t) in
  (forall e, Rabs e <= c -> cost_value c e = 0.5 * (e * e)) /\
  (forall e, c <= Rabs e -> cost_value c e = c * (Rabs e - 0.5 * c)) /\
  (exists h', critic_loss h model model_prime (batch_of ts) optim args =
              OK (rsum (map contribution ts), h')) /\
  0 <= rsum (map contribution ts) /\
  (rsum (map contribution ts) = 0 <->
   forall t, In t ts ->
             nth (t_option t) (Q_row live (t_obs t)) 0 = y_value live target args t).
Proof.
  intros Hc Hv c live target contribution.
  assert (Hnn : forall t, 0 <= contribution t)
    by (intros t; now apply cost_value_nonneg).
  split; [intros e He; now apply cost_value_small|].
  split; [intros e He; now apply cost_value_large|].
  split; [now apply critic_loss_value|].
  split; [now apply rsum_nonneg|].
  rewrite (rsum_zero contribution ts Hnn). unfold contribution.
  split; intros H t Ht; specialize (H t Ht).
  - apply cost_value_zero in H; [|assumption]. unfold err_value in H. lra.
  - apply cost_value_zero; [assumption|]. unfold err_value.
    fold live target. lra.
Qed.

(** C5: on one transition the actor update's loss is the termination term
    [term_prob * (Q[option] - max(Q) + termination_reg)] plus the policy term
    [-logp * (y - Q[option]) - entropy_reg * entropy], where [term_prob] is
    the termination probability of the executed option at the current
    state and [y] the bootstrap target the update forms. *)
Theorem actor_loss_is_sum_of_terms (h : heap) (obs : Obs) (option : nat)
    (lp en : R) (gl ge : list pid) (reward : R) (done : bool) (next_obs : Obs)
    (model model_prime : ref) (optim : Optimizer) (args : Args) :
  wf_module (modules h model) -> wf_module (modules h model_prime) ->
  num_options (modules h model_prime) = num_options (modules h model) ->
  (2 <= num_options (modules h model))%nat ->
  (option < num_options (modules h model))%nat ->
  let live := modules h model in
  let term_prob := nth option (term_row live obs) 0 in
  let Qs := Q_row live obs in
  let y := y_value live (modules h model_prime) args
             (transition obs option reward done next_obs) in
  exists h',
    actor_loss h obs option (Tensor (T1 [lp]) gl) (Tensor (T1 [en]) ge)
      reward done next_obs model model_prime optim args =
    OK (term_prob * (nth option Qs 0 - max_of Qs + termination_reg args)
        + (- lp * (y - nth option Qs 0) - entropy_reg args * en),
        h').
Proof.
  intros Hwf Hwf' Hn H2 Ho live term_prob Qs y.
  apply actor_loss_value.
  - unfold valid_option.
    rewrite wf_width_terminations, !wf_width_Q by assumption.
    rewrite Hn. auto.
  - now rewrite wf_width_Q.
  - rewrite wf_width_Q by assumption. now rewrite Hn.
Qed.

(** C4, as the code has it: in a module configured with one option the
    squeezed option values have rank zero, so the actor update raises at
    [next_Q_prime[option]] and returns no loss. *)
Theorem actor_loss_single_option_raises (h : heap) (obs : Obs) (option : nat)
    (logp entropy : ttensor) (reward : R) (done : bool) (next_obs : Obs)
    (model model_prime : ref) (optim : Optimizer) (args : Args) :
  wf_module (modules h model_prime) ->
  num_options (modules h model_prime) = 1%nat ->
  actor_loss h obs option logp entropy reward done next_obs model model_prime
    optim args = Raise IndexError.
Proof.
  intros Hwf Hn. unfold actor_loss.
  rewrite actor_y_single_option; [reflexivity|].
  now rewrite wf_width_Q.
Qed.

(** C6: in training mode a read of [epsilon] returns
    [eps_min + (eps_start - eps_min) * exp(-num_steps / eps_decay)] for the
    counter as it was before the read and leaves the counter one higher; a
    first read, at counter zero, returns [eps_start]; in evaluation mode it
    returns [eps_test] and changes nothing. *)
Theorem epsilon_contract (h : heap) (self : ref) :
  let m := modules h self in
  let h' := set_module h self (with_num_steps m (num_steps m + 1)) in
  (testing m = false -> eps_decay m <> 0 ->
   epsilon h self =
   OK (eps_min m + (eps_start m - eps_min m) * exp (- INR (num_steps m) / eps_decay m),
       h') /\
   num_steps (modules h' self) = (num_steps m + 1)%nat /\
   (num_steps m = 0%nat -> epsilon h self = OK (eps_start m, h'))) /\
  (testing m = true -> epsilon h self = OK (eps_test m, h)).
Proof.
  intros m h'. split.
  - intros Ht Hd. pose proof (epsilon_train h self Ht Hd) as E.
    fold m in E. fold h' in E. split; [exact E|]. split.
    + unfold h'. now rewrite modules_set_same.
    + intros H0. rewrite E. do 2 f_equal. unfold eps_at. rewrite H0.
      cbn [INR]. replace (- 0 / eps_decay m) with 0 by (unfold Rdiv; lra).
      rewrite exp_0. lra.
  - apply epsilon_eval.
Qed.

(** C7: for [eps_min <= eps_start] and [eps_decay > 0], the values returned
    by successive training-mode reads never increase and all lie between
    [eps_min] and [eps_start]; in test mode every read returns [eps_test]. *)
Theorem epsilon_reads_monotone (n : nat) (h : heap) (self : ref) :
  let m := modules h self in
  (testing m = false -> eps_min m <= eps_start m -> 0 < eps_decay m ->
   exists es,
     epsilon_reads n h self = OK es /\ length es = n /\
     (forall i j, (i <= j < n)%nat -> nth j es 0 <= nth i es 0) /\
     (forall e, In e es -> eps_min m <= e <= eps_start m)) /\
  (testing m = true -> epsilon_reads n h self = OK (repeat (eps_test m) n)).
Proof.
  intros m. split; [|apply epsilon_reads_eval].
  intros Ht Hle Hd. eexists. split.
  - apply epsilon_reads_train; [assumption|]. fold m. lra.
  - fold m. split; [now rewrite length_map, length_seq|]. split.
    + intros i j Hij. rewrite !nth_map_seq by lia.
      apply eps_at_antitone; [assumption..|lia].
    + intros e He. apply in_map_iff in He. destruct He as (k & <- & _).
      now apply eps_at_range.
Qed.

(** C8: one critic update, run with an optimizer built over the live
    module's parameters, leaves the target module as it was: the bootstrap
    target is detached, so the loss reaches only the live feature extractor
    and option-value head; no gradient lands on a parameter of the target
    module or on the live termination head, and the step changes no
    parameter of the target module. *)
Theorem critic_update_spares_target (h : heap) (model model_prime : ref)
    (data_batch : Batch) (optim : Optimizer) (args : Args) (loss : R) (h' : heap) :
  model <> model_prime ->
  (forall p, In p (param_groups optim) -> fst p = model) ->
  critic_loss h model model_prime data_batch optim args = OK (loss, h') ->
  modules h' model_prime = modules h model_prime /\
  (forall g, has_grad h' (model_prime, g) = has_grad h (model_prime, g)) /\
  has_grad h' (model, Terminations) =
    (if pid_mem (model, Terminations) (param_groups optim) then false
     else has_grad h (model, Terminations)) /\
  (exists y, critic_y h model model_prime data_batch args = OK y /\ graph y = []) /\
  (exists td, critic_td_err h model model_prime data_batch args = OK td /\
              graph td = [(model, Features); (model, QHead)]).
Proof.
  intros Hne Hbound Hrun.
  destruct (critic_loss_inv _ _ _ _ _ _ _ _ Hrun) as (td & c & h2 & Etd & Ec & Eb & ->).
  pose proof (critic_td_err_graph _ _ _ _ _ _ Etd) as Gtd.
  destruct (clipped_cost_graph _ _ _ Ec) as (_ & Gc).
  destruct (backward_inv _ _ _ Eb) as (Hm & _ & Hg).
  assert (Hunbound : forall g, ~ In (model_prime, g) (param_groups optim)).
  { intros g Hin. apply Hbound in Hin. cbn [fst] in Hin. congruence. }
  assert (Hout : forall p, p <> (model, Features) -> p <> (model, QHead) ->
                           pid_mem p (graph c) = false).
  { intros p H1 H2. apply pid_mem_false. rewrite Gc, Gtd.
    intros [E | [E | []]]; congruence. }
  split; [|split; [|split; [|split]]].
  - cbn [step modules]. rewrite step_module_unbound by assumption.
    now rewrite Hm.
  - intros g. cbn [step has_grad]. rewrite Hg.
    rewrite Hout by congruence.
    cbn [zero_grad has_grad]. now rewrite pid_mem_false by apply Hunbound.
  - cbn [step has_grad]. rewrite Hg.
    rewrite Hout by congruence. reflexivity.
  - unfold critic_td_err in Etd.
    destruct (critic_y h model model_prime data_batch args) as [y|e] eqn:Ey;
      [|discriminate].
    exists y. split; [reflexivity|]. now apply critic_y_graph in Ey.
  - now exists td.
Qed.

(** C9: on a freshly constructed module the policy bank is all zeros, so for
    every embedding and every valid option the action distribution is
    uniform over the [num_actions] actions and the entropy returned with
    the sampled action is [log(num_actions)]. *)
Theorem fresh_policy_is_uniform (h : heap) (self : ref) (x : list R)
    (g : list pid) (option : nat) (ic na no : nat) (es em ed et : R) (tst : bool)
    (f0 : Obs -> list R) (Q0 T0 : Linear) :
  modules h self = OptionCritic_init ic na no es em ed et tst f0 Q0 T0 ->
  (option < no)%nat -> (1 <= na)%nat ->
  let uniform := repeat (1 / INR na) na in
  let state := Tensor (T2 [x]) g in
  let gr := g ++ [(self, OptionsW); (self, OptionsB)] in
  let draw := sample_categorical uniform (gen h) in
  nth_error (options_W (modules h self)) option = Some (zeros2 embed_dim na) /\
  nth_error (options_b (modules h self)) option = Some (zeros1 na) /\
  (exists d, action_dist h self state option = OK (d, true) /\
             c_probs d = [uniform]) /\
  ((fst draw < na)%nat ->
   get_action h self state option =
   OK ((fst draw, Tensor (T1 [ln (1 / INR na)]) gr, Tensor (T1 [ln (INR na)]) gr),
       set_gen h (snd draw))) /\
  (forall a lp ent h',
     get_action h self state option = OK ((a, lp, ent), h') ->
     data ent = T1 [ln (INR na)]).
Proof.
  intros Hm Ho Hn uniform state gr draw.
  pose proof (get_action_fresh h self x g option ic na no es em ed et tst f0 Q0 T0
                Hm Ho Hn) as Hga.
  cbn zeta in Hga. fold uniform in Hga. fold draw in Hga. fold gr in Hga.
  split; [|split; [|split; [|split]]].
  - rewrite Hm. cbn [OptionCritic_init options_W]. unfold zeros3.
    now apply nth_error_repeat.
  - rewrite Hm. cbn [OptionCritic_init options_b].
    change (zeros2 no na) with (repeat (zeros1 na) no).
    now apply nth_error_repeat.
  - eexists. split.
    + now apply (action_dist_fresh h self [x] g option ic na no es em ed et tst
                   f0 Q0 T0).
    + now rewrite c_probs_uniform.
  - intros Hdraw. unfold state. rewrite Hga. unfold row_log_prob, uniform.
    rewrite nth_error_repeat by assumption. reflexivity.
  - intros a lp ent h' Hrun. unfold state in Hrun. rewrite Hga in Hrun.
    destruct (row_log_prob uniform (fst draw)); cbn [bind] in Hrun;
      [|discriminate].
    inversion Hrun. reflexivity.
Qed.

(** C10: the loss the critic update returns is a function of the two
    modules, the batch and the hyperparameters alone: the Bernoulli object
    is built and never sampled, so runs that differ only in the state of the
    random generator return the same loss, and the generator is left as it
    was. *)
Theorem critic_loss_deterministic (h : heap) (model model_prime : ref)
    (data_batch : Batch) (optim : Optimizer) (args : Args) (g1 g2 : RNG) :
  let run g := critic_loss (set_gen h g) model model_prime data_batch optim args in
  rmap fst (run g1) = rmap fst (run g2) /\
  rmap (fun r => gen (snd r)) (run g1) = rmap (fun _ => g1) (run g1).
Proof.
  intros run. unfold run. rewrite !critic_loss_set_gen.
  destruct (critic_loss h model model_prime data_batch optim args) as [[l h']|e];
    split; reflexivity.
Qed.

(** ** The two configurations *)

Lemma wf_flat_module (na : nat) (qb tb : list R) :
  length tb = length qb -> wf_module (flat_module na qb tb).
Proof.
  intros Hl. unfold wf_module, flat_module, zeros3, zeros2.
  cbn [OptionCritic_init Q terminations weight bias options_W options_b num_options].
  rewrite !repeat_length. repeat split; auto; apply repeat_length.
Qed.

Lemma demo_valid_option (g : RNG) (o : nat) :
  (o < 2)%nat -> valid_option (demo_heap g) Live Target o.
Proof.
  intros Ho. unfold valid_option, demo_heap, flat_heap, demo_module.
  cbn [modules]. rewrite width_terminations_flat, width_Q_flat. simpl. auto.
Qed.

Lemma demo_valid_batch (g : RNG) (ts : list Transition) :
  (forall t, In t ts -> (t_option t < 2)%nat) ->
  valid_batch (demo_heap g) Live Target ts.
Proof. intros H t Ht. apply demo_valid_option. now apply H. Qed.

Lemma demo_y_value (o o' : Obs) (r : R) (d : bool) :
  y_value demo_module demo_module demo_args (transition o 0 r d o') =
  r + (1 - float_of_bool d) * (1 / 2) * (1 / 2) + 1 / 2.
Proof.
  unfold y_value, demo_module.
  cbn [transition t_reward t_option t_next_obs t_done demo_args gamma].
  rewrite Q_row_flat, term_row_flat.
  cbn [map nth max_of max_from]. rewrite sigmoid_0.
  rewrite Rmax_left by lra. lra.
Qed.

Lemma demo_spec_target (o o' : Obs) (r : R) (d : bool) :
  spec_target demo_module demo_module demo_args (transition o 0 r d o') =
  r + (1 - float_of_bool d) * (1 / 2).
Proof.
  unfold spec_target, demo_module.
  cbn [transition t_reward t_option t_next_obs t_done demo_args gamma].
  rewrite Q_row_flat, term_row_flat.
  cbn [map nth max_of max_from]. rewrite sigmoid_0.
  rewrite Rmax_left by lra. lra.
Qed.

(** * Further properties of the module's methods *)

(** ** Termination probabilities *)

Lemma sigmoid_range (x : R) : 0 < sigmoid x < 1.
Proof.
  unfold sigmoid. pose proof (exp_pos (- x)) as He.
  split.
  - apply Rdiv_lt_0_compat; lra.
  - apply (Rmult_lt_reg_r (1 + exp (- x))); [lra|].
    unfold Rdiv. rewrite Rmult_assoc, Rinv_l by lra. lra.
Qed.


(** ** Softmax rows and their entropy *)

Lemma ln_le_minus_1 (y : R) : 0 < y -> ln y <= y - 1.
Proof.
  intros Hy. pose proof (exp_ineq1_le (ln y)) as H.
  rewrite exp_ln in H by assumption. lra.
Qed.

Lemma rsum_scale {A : Type} (f : A -> R) (k : R) (l : list A) :
  rsum (map (fun a => f a * k) l) = rsum (map f l) * k.
Proof.
  induction l as [|a l IH]; cbn [map].
  - unfold rsum. simpl. lra.
  - rewrite !rsum_cons, IH. lra.
Qed.

Lemma rsum_le {A : Type} (f g : A -> R) (l : list A) :
  (forall a, In a l -> f a <= g a) -> rsum (map f l) <= rsum (map g l).
Proof.
  induction l as [|a l IH]; intros H; cbn [map].
  - unfold rsum. simpl. lra.
  - rewrite !rsum_cons.
    pose proof (H a (or_introl eq_refl)).
    assert (rsum (map f l) <= rsum (map g l))
      by (apply IH; intros b Hb; apply H; now right).
    lra.
Qed.

Lemma rsum_exp_pos (xs : list R) : xs <> [] -> 0 < rsum (map exp xs).
Proof.
  destruct xs as [|x xs]; [congruence|]. intros _.
  cbn [map]. rewrite rsum_cons.
  pose proof (exp_pos x).
  pose proof (rsum_nonneg exp xs (fun a => Rlt_le _ _ (exp_pos a))). lra.
Qed.

Lemma softmax_sum (xs : list R) : xs <> [] -> rsum (softmax xs) = 1.
Proof.
  intros Hne. pose proof (rsum_exp_pos xs Hne) as Hz.
  unfold softmax, Rdiv. rewrite (rsum_scale exp).
  apply Rinv_r. lra.
Qed.

Lemma softmax_pos (xs : list R) (p : R) : In p (softmax xs) -> 0 < p.
Proof.
  intros Hp. unfold softmax in Hp. apply in_map_iff in Hp.
  destruct Hp as (x & <- & Hx).
  assert (Hne : xs <> []) by (intros ->; contradiction).
  apply Rdiv_lt_0_compat; [apply exp_pos|now apply rsum_exp_pos].
Qed.

Lemma normalise_id (p : list R) : rsum p = 1 -> normalise p = p.
Proof.
  intros Hs. unfold normalise. rewrite Hs.
  rewrite <- (map_id p) at 2. apply map_ext. intros x. lra.
Qed.

Lemma rsum_nonneg_list (p : list R) :
  (forall x, In x p -> 0 < x) -> 0 <= rsum p.
Proof.
  induction p as [|x p IH]; intros Hpos.
  - unfold rsum. simpl. lra.
  - rewrite rsum_cons. pose proof (Hpos x (or_introl eq_refl)).
    assert (0 <= rsum p) by (apply IH; intros y Hy; apply Hpos; now right).
    lra.
Qed.

Lemma entry_le_rsum (p : list R) (q : R) :
  (forall x, In x p -> 0 < x) -> In q p -> q <= rsum p.
Proof.
  induction p as [|x p IH]; intros Hpos Hq; [contradiction|].
  rewrite rsum_cons.
  assert (Hp : 0 <= rsum p)
    by (apply rsum_nonneg_list; intros y Hy; apply Hpos; now right).
  pose proof (Hpos x (or_introl eq_refl)).
  destruct Hq as [<- | Hq]; [lra|].
  assert (q <= rsum p) by (apply IH; [intros y Hy; apply Hpos; now right|assumption]).
  lra.
Qed.

Lemma rsum_affine (c k : R) (p : list R) :
  rsum (map (fun q => c - q + q * k) p) = INR (length p) * c - rsum p + rsum p * k.
Proof.
  induction p as [|x p IH]; cbn [map length].
  - unfold rsum. simpl. lra.
  - rewrite !rsum_cons, IH, S_INR. lra.
Qed.

Lemma row_entropy_nonneg (p : list R) :
  (forall q, In q p -> 0 < q <= 1) -> 0 <= row_entropy p.
Proof.
  intros Hp. unfold row_entropy.
  assert (rsum (map (fun x => x * ln x) p) <= rsum (map (fun _ => 0) p)).
  { apply rsum_le. intros q Hq. destruct (Hp q Hq) as [H0 H1].
    pose proof (ln_le_minus_1 q H0). nra. }
  assert (rsum (map (fun _ : R => 0) p) = 0)
    by (apply rsum_zero; [intros; lra|reflexivity]).
  lra.
Qed.

Lemma row_entropy_le_ln (p : list R) :
  (forall q, In q p -> 0 < q) -> rsum p = 1 -> p <> [] ->
  row_entropy p <= ln (INR (length p)).
Proof.
  intros Hpos Hs Hne. set (n := INR (length p)).
  assert (Hn : 0 < n).
  { unfold n. apply lt_0_INR. destruct p; [congruence|simpl; lia]. }
  unfold row_entropy.
  assert (H : rsum (map (fun q => - (q * ln q)) p)
              <= rsum (map (fun q => / n - q + q * ln n) p)).
  { apply rsum_le. intros q Hq. pose proof (Hpos q Hq) as H0.
    assert (Hy : 0 < / (n * q))
      by (apply Rinv_0_lt_compat; now apply Rmult_lt_0_compat).
    pose proof (ln_le_minus_1 _ Hy) as Hl.
    rewrite ln_Rinv in Hl by now apply Rmult_lt_0_compat.
    rewrite ln_mult in Hl by assumption.
    assert (Hq1 : q * / (n * q) = / n) by (field; lra).
    assert (q * (- (ln n + ln q)) <= q * (/ (n * q) - 1))
      by (apply Rmult_le_compat_l; lra).
    lra. }
  rewrite rsum_affine in H. fold n in H. rewrite Hs in H.
  replace (n * / n) with 1 in H by (field; lra).
  assert (E : rsum (map (fun q => - (q * ln q)) p)
              = - rsum (map (fun x => x * ln x) p)).
  { clear. induction p as [|x p IH]; cbn [map].
    - unfold rsum. simpl. lra.
    - rewrite !rsum_cons, IH. lra. }
  rewrite E in H. lra.
Qed.

Lemma action_dist_row (h : heap) (self : ref) (x : list R) (g : list pid)
    (option : nat) (d : Categorical) (batched : bool) :
  action_dist h self (Tensor (T2 [x]) g) option = OK (d, batched) ->
  exists l, c_probs d = [normalise (softmax l)] /\ batched = true.
Proof.
  unfold action_dist. intros H. inv_bind H.
  cbn [data] in E1. inversion E1; subst. cbn [fst mapM] in E2.
  inv_bind E2. inversion E2; subst. inversion H; subst.
  eexists. split; reflexivity.
Qed.

(** Whenever [get_action] returns on one embedding, what it sampled from is
    a probability vector with positive entries; the action indexes it, the
    log-probability is that of the action and is not positive, the entropy
    lies between 0 and the logarithm of the number of actions, and of the
    store only the generator has moved, by one draw. *)
Theorem get_action_returns_distribution (h : heap) (self : ref) (x : list R)
    (g : list pid) (option a : nat) (lp ent : ttensor) (h' : heap) :
  get_action h self (Tensor (T2 [x]) g) option = OK ((a, lp, ent), h') ->
  exists p,
    (exists d, action_dist h self (Tensor (T2 [x]) g) option = OK (d, true) /\
               c_probs d = [p]) /\
    (forall q, In q p -> 0 < q <= 1) /\ rsum p = 1 /\
    (a < length p)%nat /\
    data lp = T1 [ln (nth a p 0)] /\ ln (nth a p 0) <= 0 /\
    (exists e, data ent = T1 [e] /\ 0 <= e <= ln (INR (length p))) /\
    (a, gen h') = sample_categorical p (gen h) /\
    modules h' = modules h /\ has_grad h' = has_grad h.
Proof.
  unfold get_action. intros H.
  destruct (action_dist h self (Tensor (T2 [x]) g) option) as [[d batched]|e] eqn:Ed;
    cbn [bind] in H; [|discriminate].
  destruct (action_dist_row _ _ _ _ _ _ _ Ed) as (l & Hp & ->).
  rewrite Hp in H. cbn [sample_rows] in H.
  destruct (sample_categorical (normalise (softmax l)) (gen h)) as [a0 g1] eqn:Es.
  cbn [zipM] in H.
  destruct (row_log_prob (normalise (softmax l)) a0) as [v|e] eqn:El;
    cbn [bind] in H; [|discriminate].
  inversion H; subst a lp ent h'; clear H.
  unfold row_log_prob in El.
  destruct (nth_error (normalise (softmax l)) a0) as [q|] eqn:En;
    cbn [of_option bind] in El; [|discriminate].
  inversion El; subst; clear El.
  assert (Hne : l <> []).
  { intros ->. destruct a0; discriminate En. }
  pose proof (softmax_sum l Hne) as Hs.
  rewrite (normalise_id _ Hs) in *.
  assert (Hpos : forall q', In q' (softmax l) -> 0 < q') by apply softmax_pos.
  assert (Hrange : forall q', In q' (softmax l) -> 0 < q' <= 1).
  { intros q' Hq'. split; [now apply Hpos|].
    rewrite <- Hs. now apply entry_le_rsum. }
  assert (Hnth : nth a0 (softmax l) 0 = q) by now apply nth_error_nth.
  assert (Hin : In q (softmax l)) by (eapply nth_error_In; eassumption).
  exists (softmax l).
  split; [exists d; split; [reflexivity|assumption]|].
  split; [assumption|]. split; [assumption|].
  split; [apply nth_error_Some; congruence|].
  split; [cbn [shaped data]; now rewrite Hnth|].
  split.
  { rewrite Hnth. destruct (Hrange q Hin) as [H0 H1].
    pose proof (ln_le_minus_1 q H0). lra. }
  split.
  { eexists. split; [reflexivity|]. split.
    - now apply row_entropy_nonneg.
    - apply row_entropy_le_ln; try assumption.
      intros E. rewrite E in Hin. contradiction. }
  split; [now rewrite Es|]. split; reflexivity.
Qed.

(** ** Options outside the module's range *)

Lemma nth_error_beyond {A : Type} (l : list A) (n : nat) :
  (length l <= n)%nat -> nth_error l n = None.
Proof. intros H. now apply nth_error_None. Qed.

(** With an option index at or past [num_options], [get_action] raises
    [IndexError] on every state, before anything is drawn, and so does
    [predict_option_termination] for that current option. *)
Theorem interaction_rejects_invalid_option (h : heap) (self : ref) (obs : Obs)
    (option : nat) :
  wf_module (modules h self) ->
  (num_options (modules h self) <= option)%nat ->
  (forall state, get_action h self state option = Raise IndexError) /\
  predict_option_termination h self (get_state h self (to_tensor2 obs)) option =
  Raise IndexError.
Proof.
  intros Hwf Ho. split.
  - intros state. unfold get_action, action_dist.
    destruct Hwf as (_ & _ & _ & _ & HW & _).
    rewrite nth_error_beyond by lia. reflexivity.
  - unfold predict_option_termination, get_terminations, get_state.
    cbn [data graph linear bind tmap to_tensor2 map column mapM].
    rewrite nth_error_beyond; [reflexivity|].
    rewrite length_map, linear_row_length, wf_width_terminations by assumption.
    exact Ho.
Qed.

(** ** The greedy option *)

Lemma max_from_upper (xs : list R) : forall x y,
  In y (x :: xs) -> y <= max_from x xs.
Proof.
  induction xs as [|z xs IH]; intros x y Hy.
  - destruct Hy as [<- | []]. simpl. lra.
  - cbn [max_from]. destruct Hy as [<- | Hy].
    + apply Rmax_l.
    + eapply Rle_trans; [apply IH, Hy|apply Rmax_r].
Qed.

Lemma max_from_attained (xs : list R) : forall x, In (max_from x xs) (x :: xs).
Proof.
  induction xs as [|z xs IH]; intros x; [now left|].
  cbn [max_from]. unfold Rmax.
  destruct (Rle_dec x (max_from z xs)); [right; apply IH|now left].
Qed.

Lemma max_of_upper (row : list R) (y : R) : In y row -> y <= max_of row.
Proof. destruct row as [|x xs]; [contradiction|apply max_from_upper]. Qed.

Lemma max_of_attained (row : list R) : row <> [] -> In (max_of row) row.
Proof. destruct row as [|x xs]; [congruence|intros _; apply max_from_attained]. Qed.

(** The scan keeps the first index holding the largest entry seen so far. *)
Lemma argmax_from_spec (xs : list R) : forall (pre : list R) (best : R) (ibest : nat),
  (ibest < length pre)%nat ->
  nth ibest pre 0 = best ->
  (forall j, (j < length pre)%nat -> nth j pre 0 <= best) ->
  (forall j, (j < ibest)%nat -> nth j pre 0 < best) ->
  let r := argmax_from best ibest (length pre) xs in
  let l := pre ++ xs in
  (r < length l)%nat /\
  (forall j, (j < length l)%nat -> nth j l 0 <= nth r l 0) /\
  (forall j, (j < r)%nat -> nth j l 0 < nth r l 0).
Proof.
  induction xs as [|x xs IH]; intros pre best ibest Hi Hb Hall Hfirst.
  - cbn [argmax_from]. rewrite app_nil_r. rewrite Hb. auto.
  - cbn [argmax_from].
    replace (pre ++ x :: xs) with ((pre ++ [x]) ++ xs)
      by now rewrite <- app_assoc.
    replace (S (length pre)) with (length (pre ++ [x]))
      by (rewrite length_app; simpl; lia).
    assert (Hx : nth (length pre) (pre ++ [x]) 0 = x)
      by (rewrite app_nth2, Nat.sub_diag by lia; reflexivity).
    assert (Hold : forall j, (j < length pre)%nat ->
                             nth j (pre ++ [x]) 0 = nth j pre 0)
      by (intros j Hj; now rewrite app_nth1).
    assert (Hlen : length (pre ++ [x]) = S (length pre))
      by (rewrite length_app; simpl; lia).
    destruct (Rlt_dec best x) as [Hlt | Hge].
    + apply IH.
      * rewrite Hlen. lia.
      * exact Hx.
      * intros j Hj. rewrite Hlen in Hj.
        destruct (Nat.eq_dec j (length pre)) as [-> | Hne]; [rewrite Hx; lra|].
        rewrite Hold by lia. specialize (Hall j ltac:(lia)). lra.
      * intros j Hj. rewrite Hold by lia. specialize (Hall j Hj). lra.
    + apply IH.
      * rewrite Hlen. lia.
      * rewrite Hold by lia. exact Hb.
      * intros j Hj. rewrite Hlen in Hj.
        destruct (Nat.eq_dec j (length pre)) as [-> | Hne]; [rewrite Hx; lra|].
        rewrite Hold by lia. apply Hall. lia.
      * intros j Hj. rewrite Hold by lia. now apply Hfirst.
Qed.

Lemma row_argmax_spec (row : list R) :
  row <> [] ->
  exists i, row_argmax row = OK i /\ (i < length row)%nat /\
            nth i row 0 = max_of row /\
            (forall j, (j < i)%nat -> nth j row 0 < nth i row 0).
Proof.
  destruct row as [|x xs]; [congruence|]. intros _.
  destruct (argmax_from_spec xs [x] x 0) as (Hr & Hmax & Hfirst);
    try (simpl; lia); try reflexivity.
  { intros j Hj. simpl in Hj. assert (j = 0%nat) by lia. subst. simpl. lra. }
  cbn [length app] in *. set (i := argmax_from x 0 1 xs) in *.
  exists i. split; [reflexivity|]. split; [exact Hr|]. split; [|exact Hfirst].
  apply Rle_antisym.
  - apply max_of_upper. now apply nth_In.
  - destruct (In_nth _ _ 0 (max_of_attained (x :: xs) ltac:(discriminate)))
      as (j & Hj & <-).
    now apply Hmax.
Qed.

Lemma greedy_option_value (h : heap) (self : ref) (obs : Obs) :
  greedy_option h self (get_state h self (to_tensor2 obs)) =
  row_argmax (Q_row (modules h self) obs).
Proof.
  unfold greedy_option, get_Q, get_state.
  cbn [data graph linear bind to_tensor2 map mapM].
  fold (Q_row (modules h self) obs).
  destruct (row_argmax (Q_row (modules h self) obs)); reflexivity.
Qed.

(** On one observation [greedy_option] returns the first option whose value
    is the largest, the value the bootstrap targets take as their maximum;
    a module without options makes it raise. *)
Theorem greedy_option_is_first_argmax (h : heap) (self : ref) (obs : Obs) :
  let row := Q_row (modules h self) obs in
  let state := get_state h self (to_tensor2 obs) in
  ((0 < width (Q (modules h self)))%nat ->
   exists i, greedy_option h self state = OK i /\
             (i < width (Q (modules h self)))%nat /\
             nth i row 0 = max_of row /\
             (forall j, (j < length row)%nat -> nth j row 0 <= nth i row 0) /\
             (forall j, (j < i)%nat -> nth j row 0 < nth i row 0)) /\
  (width (Q (modules h self)) = 0%nat ->
   greedy_option h self state = Raise IndexError).
Proof.
  intros row state. unfold state. rewrite greedy_option_value. fold row.
  pose proof (Q_row_length (modules h self) obs) as Hlen. fold row in Hlen.
  split.
  - intros Hw. assert (Hne : row <> []) by (intros E; rewrite E in Hlen; simpl in Hlen; lia).
    destruct (row_argmax_spec row Hne) as (i & E & Hi & Hmax & Hfirst).
    exists i. split; [exact E|]. split; [now rewrite <- Hlen|].
    split; [exact Hmax|]. split; [|exact Hfirst].
    intros j Hj. rewrite Hmax. apply max_of_upper. now apply nth_In.
  - intros Hw. rewrite Hw in Hlen. destruct row; [reflexivity|discriminate].
Qed.


(** ** More on the exploration schedule *)




Lemma exp_neg_bound (x : R) : 0 <= x -> exp (- x) <= / (1 + x).
Proof.
  intros Hx. pose proof (exp_ineq1_le x) as H1.
  rewrite exp_Ropp. apply Rinv_le_contravar; lra.
Qed.

(** In training mode the reads come as close to [eps_min] as one likes once
    the counter is large enough: the schedule decays to its floor. *)
Theorem epsilon_tends_to_eps_min (em es ed delta : R) :
  em <= es -> 0 < ed -> 0 < delta ->
  exists N : nat,
    forall (h : heap) (self : ref),
      let m := modules h self in
      testing m = false ->
      eps_min m = em -> eps_start m = es -> eps_decay m = ed ->
      (N <= num_steps m)%nat ->
      exists e h', epsilon h self = OK (e, h') /\ em <= e < em + delta.
Proof.
  intros Hle Hd Hdelta.
  destruct (INR_unbounded (ed * (es - em) / delta)) as [N HN].
  exists N. intros h self m Ht Hem Hes Hed Hk.
  rewrite epsilon_train; [|exact Ht|fold m; lra].
  fold m. do 2 eexists. split; [reflexivity|].
  unfold eps_at. rewrite Hem, Hes, Hed.
  set (k := INR (num_steps m)).
  assert (Hk' : INR N <= k) by (unfold k; now apply le_INR).
  assert (Hpos : 0 <= k / ed).
  { apply Rmult_le_pos; [pose proof (pos_INR N); lra|].
    left. now apply Rinv_0_lt_compat. }
  replace (- k / ed) with (- (k / ed)) by (unfold Rdiv; lra).
  pose proof (exp_pos (- (k / ed))) as He0.
  pose proof (exp_neg_bound _ Hpos) as He1.
  split; [nra|].
  assert (Hbig : ed * (es - em) / delta < k) by lra.
  assert (Hden : 0 < 1 + k / ed) by lra.
  assert (Hgoal : (es - em) * / (1 + k / ed) < delta).
  { apply (Rmult_lt_reg_r (1 + k / ed)); [assumption|].
    rewrite Rmult_assoc, Rinv_l by lra.
    assert (ed * (es - em) < delta * k).
    { apply (Rmult_lt_compat_r delta) in Hbig; [|assumption].
      unfold Rdiv in Hbig. rewrite Rmult_assoc, Rinv_l in Hbig by lra. lra. }
    assert (delta * (k / ed) = delta * k * / ed) by (unfold Rdiv; ring).
    assert (es - em < delta * k * / ed).
    { apply (Rmult_lt_reg_r ed); [assumption|].
      rewrite (Rmult_assoc (delta * k)), Rinv_l by lra. lra. }
    lra. }
  assert ((es - em) * exp (- (k / ed)) <= (es - em) * / (1 + k / ed))
    by (apply Rmult_le_compat_l; lra).
  lra.
Qed.

(** Reading [epsilon] any number of times changes nothing of the store but
    the step counter of the module read: in training mode the counter grows
    by the number of reads while every learned parameter, the schedule, the
    other module, the gradients and the generator stay as they were; in
    evaluation mode the store is returned as it was; and with a zero
    [eps_decay] a training-mode read raises [ZeroDivisionError]. *)
Theorem epsilon_reads_touch_only_counter (n : nat) (h : heap) (self : ref) :
  let m := modules h self in
  (testing m = false -> eps_decay m <> 0 ->
   exists h',
     epsilon_after n h self = OK h' /\
     num_steps (modules h' self) = (num_steps m + n)%nat /\
     parameters (modules h' self) = parameters m /\
     schedule (modules h' self) = schedule m /\
     (forall r, r <> self -> modules h' r = modules h r) /\
     has_grad h' = has_grad h /\ gen h' = gen h) /\
  (testing m = true -> epsilon_after n h self = OK h) /\
  (testing m = false -> eps_decay m = 0 ->
   epsilon_after (S n) h self = Raise ZeroDivisionError).
Proof.
  intros m. split; [|split].
  - revert h m. induction n as [|n IH]; intros h m Ht Hd.
    + exists h. cbn [epsilon_after]. rewrite Nat.add_0_r. auto 10.
    + cbn [epsilon_after]. rewrite (epsilon_train h self Ht Hd). cbn [bind snd].
      fold m.
      set (h1 := set_module h self (with_num_steps m (num_steps m + 1))).
      assert (E1 : modules h1 self = with_num_steps m (num_steps m + 1))
        by apply modules_set_same.
      destruct (IH h1) as (h' & Er & Hn & Hp & Hs & Ho & Hg & Hr).
      { now rewrite E1. }
      { now rewrite E1. }
      exists h'. split; [exact Er|]. rewrite E1 in Hn, Hp, Hs.
      split; [rewrite Hn; cbn [with_num_steps num_steps]; lia|].
      split; [exact Hp|]. split; [exact Hs|].
      split; [intros r Hne; rewrite Ho by assumption;
              now apply modules_set_other|].
      split; assumption.
  - intros Ht. induction n as [|n IH]; [reflexivity|].
    cbn [epsilon_after]. rewrite (epsilon_eval h self Ht). exact IH.
  - intros Ht Hd. cbn [epsilon_after]. unfold epsilon. fold m. rewrite Ht.
    cbn [negb]. destruct (Req_dec_T (eps_decay m) 0); [reflexivity|contradiction].
Qed.

(** * Further properties of the two updates *)

(** ** Options outside the module's range *)

Lemma gather_map_raise {A : Type} (f : A -> list R) (o : A -> nat) (l : list A) :
  (exists a, In a l /\ (length (f a) <= o a)%nat) ->
  gather (map f l) (map o l) = Raise IndexError.
Proof.
  induction l as [|a l IH]; intros (b & Hb & Hlen); [contradiction|].
  cbn [map gather].
  destruct (nth_error (f a) (o a)) as [x|] eqn:E; [|reflexivity].
  cbn [of_option bind]. destruct Hb as [-> | Hb].
  - rewrite nth_error_beyond in E by assumption. discriminate.
  - rewrite IH by (exists b; auto). reflexivity.
Qed.

(** Both updates raise [IndexError], and so change nothing, when handed an
    option index at or past [num_options]: the critic update if any
    transition of the batch carries one, the actor update for its option. *)
Theorem updates_reject_invalid_option (h : heap) (model model_prime : ref)
    (optim : Optimizer) (args : Args) :
  wf_module (modules h model) ->
  (forall ts,
     (exists t, In t ts /\ (num_options (modules h model) <= t_option t)%nat) ->
     critic_loss h model model_prime (batch_of ts) optim args = Raise IndexError) /\
  (forall obs option logp entropy reward done next_obs,
     (num_options (modules h model) <= option)%nat ->
     actor_loss h obs option logp entropy reward done next_obs model model_prime
       optim args = Raise IndexError).
Proof.
  intros Hwf. pose proof (wf_width_terminations _ Hwf) as Hw. split.
  - intros ts (t & Ht & Ho).
    unfold critic_loss, critic_td_err, critic_y.
    cbn [get_terminations get_state linear bind data graph tmap detach
         to_tensor1 batch_of b_obs b_options].
    rewrite !map_map. unfold tt_lift, detach. cbn [data index_batch].
    rewrite gather_map_raise; [reflexivity|].
    exists t. split; [assumption|].
    rewrite length_map, linear_row_length, Hw. exact Ho.
  - intros obs option logp entropy reward done next_obs Ho.
    unfold actor_loss, actor_y.
    cbn [get_terminations get_state linear bind data graph tmap to_tensor2 map].
    unfold tt_lift. cbn [data column mapM].
    rewrite nth_error_beyond; [reflexivity|].
    rewrite length_map, linear_row_length, Hw. exact Ho.
Qed.

(** ** The two updates on the same transition *)

(** On one transition the actor update forms the very target the critic
    update forms for it as a batch of one. *)
Theorem actor_target_matches_critic (h : heap) (obs : Obs) (option : nat)
    (reward : R) (done : bool) (next_obs : Obs) (model model_prime : ref)
    (args : Args) :
  valid_option h model model_prime option ->
  (2 <= width (Q (modules h model)))%nat ->
  (2 <= width (Q (modules h model_prime)))%nat ->
  exists y option_term_prob Q_,
    actor_y h obs option reward done next_obs model model_prime args =
    OK (y, option_term_prob, Q_) /\
    critic_y h model model_prime
      (batch_of [transition obs option reward done next_obs]) args = OK y.
Proof.
  intros Hv Hw Hw'. do 3 eexists. split.
  - now apply actor_y_value.
  - rewrite critic_y_value; [reflexivity|].
    intros t [<- | []]. exact Hv.
Qed.

(** ** Bounds on the critic loss *)

Lemma cost_value_bounds (c e : R) :
  0 <= c ->
  0 <= cost_value c e /\ cost_value c e <= c * Rabs e /\
  cost_value c e <= 0.5 * (e * e).
Proof.
  intros Hc. pose proof (Rabs_pos e) as Ha.
  assert (Hsq : Rabs e * Rabs e = e * e)
    by (unfold Rabs; destruct (Rcase_abs e); lra).
  unfold cost_value. rewrite Rplus_0_l.
  destruct (Rle_or_lt (Rabs e) c) as [Hs | Hl].
  - rewrite Rmin_left by assumption. nra.
  - rewrite Rmin_right by lra. nra.
Qed.

Lemma cost_value_no_clip (e : R) : cost_value 0 e = 0.
Proof.
  unfold cost_value. rewrite Rplus_0_l.
  rewrite Rmin_right by apply Rabs_pos. lra.
Qed.

(** For a threshold [clip_delta >= 0] the loss of the critic update lies
    between 0 and both [clip_delta] times the sum of the absolute errors and
    half the sum of the squared errors; with [clip_delta = 0] it is 0
    whatever the errors are. *)
Theorem critic_loss_bounds (h : heap) (model model_prime : ref)
    (ts : list Transition) (optim : Optimizer) (args : Args) :
  0 <= clip_delta args -> ts <> [] ->
  valid_batch h model model_prime ts ->
  let err := err_value (modules h model) (modules h model_prime) args in
  exists loss h',
    critic_loss h model model_prime (batch_of ts) optim args = OK (loss, h') /\
    0 <= loss /\
    loss <= clip_delta args * rsum (map (fun t => Rabs (err t)) ts) /\
    loss <= 0.5 * rsum (map (fun t => err t * err t) ts) /\
    (clip_delta args = 0 -> loss = 0).
Proof.
  intros Hc _ Hv err.
  destruct (critic_loss_value h model model_prime ts optim args Hv) as (h' & E).
  fold err in E. do 2 eexists. split; [exact E|].
  split; [|split; [|split]].
  - apply rsum_nonneg. intros t. now apply cost_value_bounds.
  - rewrite Rmult_comm, <- (rsum_scale (fun t => Rabs (err t))).
    apply rsum_le. intros t _.
    destruct (cost_value_bounds (clip_delta args) (err t) Hc) as (_ & H & _). lra.
  - rewrite Rmult_comm, <- (rsum_scale (fun t => err t * err t)).
    apply rsum_le. intros t _.
    destruct (cost_value_bounds (clip_delta args) (err t) Hc) as (_ & _ & H). lra.
  - intros H0. rewrite H0. apply rsum_zero.
    + intros t. rewrite cost_value_no_clip. lra.
    + intros t _. apply cost_value_no_clip.
Qed.

Lemma rsum_app (xs ys : list R) : rsum (xs ++ ys) = rsum xs + rsum ys.
Proof.
  induction xs as [|x xs IH]; cbn [app].
  - unfold rsum at 2. simpl. lra.
  - rewrite !rsum_cons, IH. lra.
Qed.

(** The loss of the critic update on a batch is the sum of its losses on the
    two parts of any split of that batch, all taken from the same store. *)
Theorem critic_loss_additive (h : heap) (model model_prime : ref)
    (ts1 ts2 : list Transition) (optim : Optimizer) (args : Args) :
  ts1 <> [] -> ts2 <> [] ->
  valid_batch h model model_prime ts1 ->
  valid_batch h model model_prime ts2 ->
  exists l1 l2 h1 h2 h12,
    critic_loss h model model_prime (batch_of ts1) optim args = OK (l1, h1) /\
    critic_loss h model model_prime (batch_of ts2) optim args = OK (l2, h2) /\
    critic_loss h model model_prime (batch_of (ts1 ++ ts2)) optim args =
    OK (l1 + l2, h12).
Proof.
  intros _ _ Hv1 Hv2.
  assert (Hv : valid_batch h model model_prime (ts1 ++ ts2)).
  { intros t Ht. apply in_app_iff in Ht. destruct Ht; auto. }
  destruct (critic_loss_value h model model_prime ts1 optim args Hv1) as (h1 & E1).
  destruct (critic_loss_value h model model_prime ts2 optim args Hv2) as (h2 & E2).
  destruct (critic_loss_value h model model_prime (ts1 ++ ts2) optim args Hv)
    as (h12 & E12).
  do 5 eexists. split; [exact E1|]. split; [exact E2|].
  rewrite E12, map_app, rsum_app. reflexivity.
Qed.

(** ** Where the actor update's gradient can flow *)

Lemma get_terminations_graph (h : heap) (self : ref) (state t : ttensor) :
  get_terminations h self state = OK t ->
  graph t = graph state ++ [(self, Terminations)].
Proof.
  unfold get_terminations. intros H. inv_bind H. inversion H. reflexivity.
Qed.

Lemma actor_y_graph (h : heap) (obs : Obs) (option : nat) (reward : R)
    (done : bool) (next_obs : Obs) (model model_prime : ref) (args : Args)
    (y tp Q_ : ttensor) :
  actor_y h obs option reward done next_obs model model_prime args
  = OK (y, tp, Q_) ->
  graph y = [] /\ graph Q_ = [] /\
  graph tp = [(model, Features); (model, Terminations)].
Proof.
  unfold actor_y. intros H. inv_bind H. inversion H; subst. clear H.
  split; [reflexivity|]. split; [reflexivity|].
  apply tt_lift_graph in E0. apply get_terminations_graph in E.
  rewrite E0, E. reflexivity.
Qed.

Ltac graph_facts :=
  repeat match goal with
         | H : tt_bin _ _ _ = OK _ |- _ => apply tt_bin_graph in H
         | H : tt_mul _ _ = OK _ |- _ => apply tt_bin_graph in H
         | H : tt_sub _ _ = OK _ |- _ => apply tt_bin_graph in H
         | H : tt_add _ _ = OK _ |- _ => apply tt_bin_graph in H
         | H : tt_lift _ _ = OK _ |- _ => apply tt_lift_graph in H
         end;
  repeat (cbn [tt_map tt_sum graph];
          match goal with
          | H : graph _ = _ |- _ => rewrite H
          end).

Lemma termination_loss_graph (args : Args) (option : nat) (tp Q_ tl : ttensor) :
  termination_loss args option tp Q_ = OK tl ->
  graph tl = graph tp ++ graph Q_ ++ graph Q_.
Proof.
  unfold termination_loss. intros H. inv_bind H.
  graph_facts. reflexivity.
Qed.

Lemma policy_loss_graph (args : Args) (option : nat) (logp entropy y Q_ pl : ttensor) :
  policy_loss args option logp entropy y Q_ = OK pl ->
  graph pl = (graph logp ++ graph y ++ graph Q_) ++ graph entropy.
Proof.
  unfold policy_loss. intros H. inv_bind H.
  graph_facts. reflexivity.
Qed.

Lemma actor_loss_inv (h : heap) (obs : Obs) (option : nat) (logp entropy : ttensor)
    (reward : R) (done : bool) (next_obs : Obs) (model model_prime : ref)
    (optim : Optimizer) (args : Args) (v : R) (h' : heap) :
  actor_loss h obs option logp entropy reward done next_obs model model_prime
    optim args = OK (v, h') ->
  exists loss h2,
    (forall p, In p (graph loss) <->
               In p ([(model, Features); (model, Terminations)]
                     ++ graph logp ++ graph entropy)) /\
    backward loss (zero_grad optim h) = OK h2 /\
    h' = step optim h2.
Proof using Type.
  unfold actor_loss. intros H.
  destruct (actor_y h obs option reward done next_obs model model_prime args)
    as [[[y tp] Q_]|e] eqn:Ey; cbn [bind] in H; [|discriminate].
  destruct (actor_y_graph _ _ _ _ _ _ _ _ _ _ _ _ Ey) as (Gy & GQ & Gtp).
  destruct (termination_loss args option tp Q_) as [tl|e] eqn:Etl;
    cbn [bind] in H; [|discriminate].
  destruct (policy_loss args option logp entropy y Q_) as [pl|e] eqn:Epl;
    cbn [bind] in H; [|discriminate].
  destruct (tt_add tl pl) as [loss|e] eqn:El; cbn [bind] in H; [|discriminate].
  destruct (backward loss (zero_grad optim h)) as [h2|e] eqn:Eb;
    cbn [bind] in H; [|discriminate].
  destruct (item (data loss)) as [x|e]; cbn [bind] in H; [|discriminate].
  inversion H; subst. clear H.
  exists loss, h2. split; [|split; [assumption|reflexivity]].
  apply tt_bin_graph in El. apply termination_loss_graph in Etl.
  apply policy_loss_graph in Epl.
  rewrite El, Etl, Epl, Gy, GQ, Gtp. clear.
  intros p. rewrite !in_app_iff. simpl. tauto.
Qed.

(** One actor update, run with an optimizer built over the live module's
    parameters and with a log-probability and an entropy whose graphs reach
    only live parameters other than the option-value head, sends no gradient
    to the option-value head of either module and leaves the target module
    as it was; its gradient does land on the live feature extractor and
    termination head. *)
Theorem actor_update_spares_critic_heads (h : heap) (obs : Obs) (option : nat)
    (logp entropy : ttensor) (reward : R) (done : bool) (next_obs : Obs)
    (model model_prime : ref) (optim : Optimizer) (args : Args) (v : R)
    (h' : heap) :
  model <> model_prime ->
  (forall p, In p (param_groups optim) -> fst p = model) ->
  (forall p, In p (graph logp ++ graph entropy) ->
             fst p = model /\ snd p <> QHead) ->
  actor_loss h obs option logp entropy reward done next_obs model model_prime
    optim args = OK (v, h') ->
  modules h' model_prime = modules h model_prime /\
  (forall g, has_grad h' (model_prime, g) = has_grad h (model_prime, g)) /\
  has_grad h' (model, QHead) =
    (if pid_mem (model, QHead) (param_groups optim) then false
     else has_grad h (model, QHead)) /\
  has_grad h' (model, Terminations) = true /\
  has_grad h' (model, Features) = true.
Proof.
  intros Hne Hbound Hin Hrun.
  destruct (actor_loss_inv _ _ _ _ _ _ _ _ _ _ _ _ _ _ Hrun)
    as (loss & h2 & Gl & Eb & ->).
  destruct (backward_inv _ _ _ Eb) as (Hm & _ & Hg).
  assert (Hunbound : forall g, ~ In (model_prime, g) (param_groups optim)).
  { intros g Hg'. apply Hbound in Hg'. cbn [fst] in Hg'. congruence. }
  assert (Hreach : forall p, In p (graph loss) -> fst p = model /\ snd p <> QHead).
  { intros p Hp. apply Gl in Hp. apply in_app_iff in Hp.
    destruct Hp as [[<- | [<- | []]] | Hp]; cbn [fst snd];
      [split; [reflexivity|discriminate]..|now apply Hin]. }
  assert (Hout : forall p, (fst p <> model \/ snd p = QHead) ->
                           pid_mem p (graph loss) = false).
  { intros p Hp. apply pid_mem_false. intros Hc.
    destruct (Hreach p Hc) as [H1 H2]. destruct Hp; contradiction. }
  split; [|split; [|split; [|split]]].
  - cbn [step modules]. rewrite step_module_unbound by assumption.
    now rewrite Hm.
  - intros g. cbn [step has_grad]. rewrite Hg.
    rewrite Hout by (left; cbn [fst]; congruence).
    cbn [zero_grad has_grad]. now rewrite pid_mem_false by apply Hunbound.
  - cbn [step has_grad]. rewrite Hg.
    rewrite Hout by (right; reflexivity). reflexivity.
  - cbn [step has_grad]. rewrite Hg.
    assert (E : pid_mem (model, Terminations) (graph loss) = true)
      by (apply pid_mem_In, Gl; simpl; auto).
    now rewrite E.
  - cbn [step has_grad]. rewrite Hg.
    assert (E : pid_mem (model, Features) (graph loss) = true)
      by (apply pid_mem_In, Gl; simpl; auto).
    now rewrite E.
Qed.

(** ** The termination part of the actor loss *)

(** With at least two options, the actor loss is at most
    [term_prob * termination_reg] plus its policy part, and reaches that
    value exactly when the executed option is one of largest value: only
    then does the termination part reduce to [term_prob * termination_reg]. *)
Theorem actor_termination_part_bound (h : heap) (obs : Obs) (option : nat)
    (lp en : R) (gl ge : list pid) (reward : R) (done : bool) (next_obs : Obs)
    (model model_prime : ref) (optim : Optimizer) (args : Args) :
  valid_option h model model_prime option ->
  (2 <= width (Q (modules h model)))%nat ->
  (2 <= width (Q (modules h model_prime)))%nat ->
  let live := modules h model in
  let term_prob := nth option (term_row live obs) 0 in
  let Qs := Q_row live obs in
  let y := y_value live (modules h model_prime) args
             (transition obs option reward done next_obs) in
  let policy := - lp * (y - nth option Qs 0) - entropy_reg args * en in
  exists loss h',
    actor_loss h obs option (Tensor (T1 [lp]) gl) (Tensor (T1 [en]) ge)
      reward done next_obs model model_prime optim args = OK (loss, h') /\
    0 < term_prob < 1 /\
    loss <= term_prob * termination_reg args + policy /\
    (loss = term_prob * termination_reg args + policy <->
     nth option Qs 0 = max_of Qs).
Proof.
  intros Hv Hw Hw' live term_prob Qs y policy.
  destruct (actor_loss_value h obs option lp en gl ge reward done next_obs
              model model_prime optim args Hv Hw Hw') as (h' & E).
  fold live in E. fold term_prob in E. fold Qs in E. fold y in E.
  do 2 eexists. split; [exact E|].
  destruct Hv as (Hot & Hoq & _).
  assert (Htp : 0 < term_prob < 1).
  { assert (Hin : In term_prob (term_row live obs))
      by (apply nth_In; rewrite term_row_length; exact Hot).
    unfold term_row in Hin. apply in_map_iff in Hin.
    destruct Hin as (x & <- & _). apply sigmoid_range. }
  assert (Hmax : nth option Qs 0 <= max_of Qs)
    by (apply max_of_upper, nth_In; unfold Qs; rewrite Q_row_length; exact Hoq).
  split; [exact Htp|]. unfold policy. split; [nra|].
  split; intros H; nra.
Qed.

(** ** More on the two-option configuration *)

Lemma demo_width_Q (g : RNG) (r : ref) : width (Q (modules (demo_heap g) r)) = 2%nat.
Proof. destruct r; cbn [demo_heap flat_heap modules]; apply width_Q_flat. Qed.

Lemma demo_width_terminations (g : RNG) (r : ref) :
  width (terminations (modules (demo_heap g) r)) = 2%nat.
Proof.
  destruct r; cbn [demo_heap flat_heap modules]; apply width_terminations_flat.
Qed.

Lemma demo_wf (g : RNG) (r : ref) : wf_module (modules (demo_heap g) r).
Proof.
  destruct r; cbn [demo_heap flat_heap modules]; now apply wf_flat_module.
Qed.

End OptionCriticModel.

(** * The claims at concrete inputs *)

(** C1, on the code: for a non-terminal transition with reward 0, discount
    1/2, next-state termination probability 1/2 and target values [1; 1],
    the critic update forms the target 3/4, where the mask and discount
    multiplying the whole mixture would give 1/2: the term with the maximum
    is added outside the product. *)
Theorem critic_target_leaves_max_term_unmasked :
  critic_y (demo_heap (Obs:=unit) tt) Live Target
    (batch_of [transition tt 0 0 false tt]) demo_args =
  OK (Tensor (T1 [3 / 4]) []) /\
  spec_target (Obs:=unit) demo_module demo_module demo_args
    (transition tt 0 0 false tt) = 1 / 2.
Proof.
  split.
  - rewrite critic_y_value
      by (apply demo_valid_batch; intros t [<- | []]; simpl; lia).
    cbn [map demo_heap flat_heap modules]. rewrite demo_y_value.
    cbn [float_of_bool]. do 4 f_equal. lra.
  - rewrite demo_spec_target. cbn [float_of_bool]. lra.
Qed.

(** C2, on the code: for a terminal transition with reward 0, next-state
    termination probability 1/2 and target values [1; 1], both updates form
    the target 1/2 and not the reward: the masked product vanishes but the
    term with the maximum does not. *)
Theorem done_target_keeps_max_term :
  critic_y (demo_heap (Obs:=unit) tt) Live Target
    (batch_of [transition tt 0 0 true tt]) demo_args =
  OK (Tensor (T1 [1 / 2]) []) /\
  exists option_term_prob Q_,
    actor_y (demo_heap (Obs:=unit) tt) tt 0 0 true tt Live Target demo_args =
    OK (Tensor (T1 [1 / 2]) [], option_term_prob, Q_).
Proof.
  split.
  - rewrite critic_y_value
      by (apply demo_valid_batch; intros t [<- | []]; simpl; lia).
    cbn [map demo_heap flat_heap modules]. rewrite demo_y_value.
    cbn [float_of_bool]. do 4 f_equal. lra.
  - rewrite actor_y_value.
    + cbn [demo_heap flat_heap modules]. rewrite demo_y_value.
      cbn [float_of_bool]. do 2 eexists. do 6 f_equal. lra.
    + apply demo_valid_option. lia.
    + cbn [demo_heap flat_heap modules]. unfold demo_module.
      rewrite width_Q_flat. simpl. lia.
    + cbn [demo_heap flat_heap modules]. unfold demo_module.
      rewrite width_Q_flat. simpl. lia.
Qed.

(** The critic update on one terminal transition: the error is -1/2, inside
    the clipping threshold 1, and the loss is 1/8. *)
Lemma critic_loss_is_clipped_sum_witness :
  0 < clip_delta demo_args /\
  valid_batch (demo_heap (Obs:=unit) tt) Live Target [transition tt 0 0 true tt] /\
  exists h',
    critic_loss (demo_heap (Obs:=unit) tt) Live Target
      (batch_of [transition tt 0 0 true tt]) (live_optim shift_Q) demo_args =
    OK (1 / 8, h').
Proof.
  assert (Hc : 0 < clip_delta demo_args) by (simpl; lra).
  assert (Hv : valid_batch (demo_heap (Obs:=unit) tt) Live Target
                 [transition tt 0 0 true tt])
    by (apply demo_valid_batch; intros t [<- | []]; simpl; lia).
  split; [exact Hc|]. split; [exact Hv|].
  destruct (critic_loss_is_clipped_sum (demo_heap tt) Live Target
              [transition tt 0 0 true tt] (live_optim shift_Q) demo_args Hc Hv)
    as (_ & _ & (h' & E) & _).
  exists h'. rewrite E. do 2 f_equal.
  cbn [map demo_heap flat_heap modules]. rewrite rsum_cons.
  unfold err_value. rewrite demo_y_value. unfold demo_module at 1.
  rewrite Q_row_flat. cbn [transition t_option nth float_of_bool].
  rewrite cost_value_small.
  - unfold rsum. simpl. lra.
  - exact Hc.
  - replace (0 + (1 - 1) * (1 / 2) * (1 / 2) + 1 / 2 - 1) with (- (1 / 2)) by lra.
    rewrite Rabs_Ropp, Rabs_right; simpl; lra.
Defined.

(** The actor update on the two-option configuration returns a loss. *)
Lemma actor_loss_is_sum_of_terms_witness :
  wf_module (Obs:=unit) demo_module /\
  (2 <= num_options (Obs:=unit) demo_module)%nat /\
  exists v h',
    actor_loss (demo_heap (Obs:=unit) tt) tt 0
      (Tensor (T1 [- ln 2]) [(Live, OptionsW)]) (Tensor (T1 [ln 2]) [(Live, OptionsW)])
      1 false tt Live Target (live_optim shift_Q) demo_args = OK (v, h').
Proof.
  assert (Hwf : wf_module (Obs:=unit) demo_module)
    by (apply wf_flat_module; reflexivity).
  split; [exact Hwf|]. split; [simpl; lia|].
  destruct (actor_loss_is_sum_of_terms (demo_heap tt) tt 0 (- ln 2) (ln 2)
              [(Live, OptionsW)] [(Live, OptionsW)] 1 false tt Live Target
              (live_optim shift_Q) demo_args Hwf Hwf eq_refl)
    as (h' & E); [simpl; lia | simpl; lia |].
  eexists. exists h'. exact E.
Defined.

(** The actor update on the one-option configuration raises. *)
Lemma actor_loss_single_option_raises_witness :
  wf_module (Obs:=unit) single_module /\
  num_options (Obs:=unit) single_module = 1%nat /\
  actor_loss (single_heap (Obs:=unit) tt) tt 0
    (Tensor (T1 [0]) [(Live, OptionsW)]) (Tensor (T1 [0]) [(Live, OptionsW)])
    1 false tt Live Target (live_optim shift_Q) demo_args = Raise IndexError.
Proof.
  assert (Hwf : wf_module (Obs:=unit) single_module)
    by (apply wf_flat_module; reflexivity).
  split; [exact Hwf|]. split; [reflexivity|].
  apply (actor_loss_single_option_raises (single_heap tt)); [exact Hwf|reflexivity].
Defined.

(** The first training-mode read on a module with the default schedule. *)
Lemma epsilon_contract_witness :
  testing (Obs:=unit) demo_module = false /\
  eps_decay (Obs:=unit) demo_module <> 0 /\
  epsilon (demo_heap (Obs:=unit) tt) Live =
  OK (1, set_module (demo_heap tt) Live (with_num_steps demo_module 1)).
Proof.
  assert (Hd : eps_decay (Obs:=unit) demo_module <> 0) by (simpl; lra).
  split; [reflexivity|]. split; [exact Hd|].
  destruct (epsilon_contract (demo_heap (Obs:=unit) tt) Live) as [Htrain _].
  destruct (Htrain eq_refl Hd) as (_ & _ & Hfirst).
  exact (Hfirst eq_refl).
Defined.

(** Three training-mode reads on a module with the default schedule. *)
Lemma epsilon_reads_monotone_witness :
  testing (Obs:=unit) demo_module = false /\
  eps_min (Obs:=unit) demo_module <= eps_start (Obs:=unit) demo_module /\
  0 < eps_decay (Obs:=unit) demo_module /\
  exists es,
    epsilon_reads 3 (demo_heap (Obs:=unit) tt) Live = OK es /\
    forall i j, (i <= j < 3)%nat -> nth j es 0 <= nth i es 0.
Proof.
  assert (Hle : eps_min (Obs:=unit) demo_module <= eps_start (Obs:=unit) demo_module)
    by (simpl; lra).
  assert (Hd : 0 < eps_decay (Obs:=unit) demo_module) by (simpl; lra).
  split; [reflexivity|]. split; [exact Hle|]. split; [exact Hd|].
  destruct (epsilon_reads_monotone 3 (demo_heap (Obs:=unit) tt) Live) as [Htrain _].
  destruct (Htrain eq_refl Hle Hd) as (es & E & _ & Hmono & _).
  exists es. split; [exact E|exact Hmono].
Defined.

(** A critic update with an optimizer over the live module. *)
Lemma critic_update_spares_target_witness :
  Live <> Target /\
  (forall p, In p (param_groups (Obs:=unit) (live_optim shift_Q)) -> fst p = Live) /\
  exists loss h',
    critic_loss (demo_heap (Obs:=unit) tt) Live Target
      (batch_of [transition tt 0 0 true tt]) (live_optim shift_Q) demo_args =
    OK (loss, h') /\
    modules h' Target = demo_module /\
    has_grad h' (Target, QHead) = false.
Proof.
  assert (Hne : Live <> Target) by discriminate.
  assert (Hb : forall p, In p (param_groups (Obs:=unit) (live_optim shift_Q)) ->
                         fst p = Live).
  { intros p Hp. cbn in Hp. intuition (subst; reflexivity). }
  split; [exact Hne|]. split; [exact Hb|].
  destruct (critic_loss_value (demo_heap (Obs:=unit) tt) Live Target
              [transition tt 0 0 true tt] (live_optim shift_Q) demo_args)
    as (h' & E);
    [apply demo_valid_batch; intros t [<- | []]; simpl; lia|].
  eexists. exists h'. split; [exact E|].
  destruct (critic_update_spares_target _ _ _ _ _ _ _ _ Hne Hb E)
    as (Hm & Hg & _).
  split; [exact Hm|exact (Hg QHead)].
Defined.

(** A fresh module with two actions and two options. *)
Lemma fresh_policy_is_uniform_witness :
  (0 < 2)%nat /\ (1 <= 2)%nat /\
  exists d,
    action_dist (demo_heap (Obs:=unit) tt) Live (Tensor (T2 [zeros1 embed_dim]) []) 0 =
    OK (d, true) /\
    c_probs d = [[1 / INR 2; 1 / INR 2]].
Proof.
  split; [lia|]. split; [lia|].
  refine (proj1 (proj2 (proj2
    (fresh_policy_is_uniform (fun _ g => (0%nat, g)) (demo_heap (Obs:=unit) tt) Live
       (zeros1 embed_dim) [] 0 4 2 2 1 (1 / 10) 1000000 (5 / 100) false
       (fun _ => zeros1 embed_dim)
       {| weight := zeros2 2 embed_dim; bias := [1; 1] |}
       {| weight := zeros2 2 embed_dim; bias := [0; 0] |}
       eq_refl _ _)))); lia.
Defined.

(** * The further properties at concrete inputs *)

(** The samplers used below always draw action 0 and always terminate. *)


Lemma get_action_returns_distribution_witness :
  exists a lp ent h',
    get_action (fun _ g => (0%nat, g)) (demo_heap (Obs:=unit) tt) Live
      (Tensor (T2 [zeros1 embed_dim]) []) 0 = OK ((a, lp, ent), h') /\
    exists e, data ent = T1 [e] /\ 0 <= e.
Proof.
  assert (E : get_action (fun _ g => (0%nat, g)) (demo_heap (Obs:=unit) tt) Live
                (Tensor (T2 [zeros1 embed_dim]) []) 0 =
              OK ((0%nat,
                   Tensor (T1 [ln (1 / INR 2)]) [(Live, OptionsW); (Live, OptionsB)],
                   Tensor (T1 [ln (INR 2)]) [(Live, OptionsW); (Live, OptionsB)]),
                  set_gen (demo_heap tt) tt)).
  { rewrite (get_action_fresh (fun _ g => (0%nat, g)) (demo_heap (Obs:=unit) tt) Live
               (zeros1 embed_dim) [] 0 4 2 2 1 (1 / 10) 1000000 (5 / 100) false
               (fun _ => zeros1 embed_dim)
               {| weight := zeros2 2 embed_dim; bias := [1; 1] |}
               {| weight := zeros2 2 embed_dim; bias := [0; 0] |}
               eq_refl); [reflexivity|lia|lia]. }
  do 4 eexists. split; [exact E|].
  destruct (get_action_returns_distribution _ _ _ _ _ _ _ _ _ _ E)
    as (p & _ & _ & _ & _ & _ & _ & (e & He & He0 & _) & _).
  exists e. split; assumption.
Defined.

Lemma interaction_rejects_invalid_option_witness :
  wf_module (Obs:=unit) demo_module /\ (2 <= 5)%nat /\
  get_action (fun _ g => (0%nat, g)) (demo_heap (Obs:=unit) tt) Live
    (Tensor (T2 [zeros1 embed_dim]) []) 5 = Raise IndexError.
Proof.
  assert (Hwf : wf_module (Obs:=unit) demo_module)
    by (apply wf_flat_module; reflexivity).
  split; [exact Hwf|]. split; [lia|].
  apply (interaction_rejects_invalid_option (fun _ g => (0%nat, g))
           (fun _ g => (true, g)) (demo_heap (Obs:=unit) tt) Live tt 5 Hwf).
  simpl. lia.
Defined.

Lemma greedy_option_is_first_argmax_witness :
  (0 < width (Q (Obs:=unit) demo_module))%nat /\
  exists i,
    greedy_option (demo_heap (Obs:=unit) tt) Live
      (get_state (demo_heap tt) Live (to_tensor2 tt)) = OK i /\
    (i < 2)%nat.
Proof.
  assert (Hw : (0 < width (Q (Obs:=unit) demo_module))%nat)
    by (unfold demo_module; rewrite width_Q_flat; simpl; lia).
  split; [exact Hw|].
  destruct (proj1 (greedy_option_is_first_argmax (demo_heap (Obs:=unit) tt) Live tt) Hw)
    as (i & E & Hi & _).
  exists i. split; [exact E|].
  rewrite (demo_width_Q tt Live) in Hi. exact Hi.
Defined.



Lemma epsilon_tends_to_eps_min_witness :
  1 / 10 <= 1 /\ 0 < 1000000 /\ 0 < 1 / 100 /\
  exists N : nat,
    forall h : heap (Obs:=unit) (RNG:=unit),
      modules h Live = with_num_steps demo_module (num_steps (modules h Live)) ->
      (N <= num_steps (modules h Live))%nat ->
      exists e h', epsilon h Live = OK (e, h') /\ e < 1 / 10 + 1 / 100.
Proof.
  assert (H1 : 1 / 10 <= 1) by lra.
  assert (H2 : 0 < 1000000) by lra.
  assert (H3 : 0 < 1 / 100) by lra.
  split; [exact H1|]. split; [exact H2|]. split; [exact H3|].
  destruct (epsilon_tends_to_eps_min (Obs:=unit) (RNG:=unit)
              (1 / 10) 1 1000000 (1 / 100) H1 H2 H3) as (N & HN).
  exists N. intros h Hm Hk.
  destruct (HN h Live) as (e & h' & E & _ & He);
    try (rewrite Hm; reflexivity); try exact Hk.
  exists e, h'. split; [exact E|exact He].
Defined.

Lemma epsilon_reads_touch_only_counter_witness :
  testing (Obs:=unit) demo_module = false /\
  eps_decay (Obs:=unit) demo_module <> 0 /\
  exists h',
    epsilon_after 3 (demo_heap (Obs:=unit) tt) Live = OK h' /\
    num_steps (modules h' Live) = 3%nat /\
    parameters (modules h' Live) = parameters demo_module.
Proof.
  assert (Hd : eps_decay (Obs:=unit) demo_module <> 0) by (simpl; lra).
  split; [reflexivity|]. split; [exact Hd|].
  destruct (proj1 (epsilon_reads_touch_only_counter 3 (demo_heap (Obs:=unit) tt) Live)
              eq_refl Hd) as (h' & E & Hn & Hp & _).
  exists h'. split; [exact E|]. split; [exact Hn|exact Hp].
Defined.

Lemma updates_reject_invalid_option_witness :
  wf_module (Obs:=unit) demo_module /\
  critic_loss (demo_heap (Obs:=unit) tt) Live Target
    (batch_of [transition tt 0 0 false tt; transition tt 7 0 false tt])
    (live_optim shift_Q) demo_args = Raise IndexError.
Proof.
  assert (Hwf : wf_module (Obs:=unit) demo_module)
    by (apply wf_flat_module; reflexivity).
  split; [exact Hwf|].
  apply (proj1 (updates_reject_invalid_option (demo_heap (Obs:=unit) tt) Live Target
                  (live_optim shift_Q) demo_args Hwf)).
  exists (transition tt 7 0 false tt). split; [simpl; auto|simpl; lia].
Defined.

Lemma actor_target_matches_critic_witness :
  valid_option (demo_heap (Obs:=unit) tt) Live Target 1 /\
  exists y option_term_prob Q_,
    actor_y (demo_heap (Obs:=unit) tt) tt 1 1 false tt Live Target demo_args =
    OK (y, option_term_prob, Q_) /\
    critic_y (demo_heap (Obs:=unit) tt) Live Target
      (batch_of [transition tt 1 1 false tt]) demo_args = OK y.
Proof.
  assert (Hv : valid_option (demo_heap (Obs:=unit) tt) Live Target 1)
    by (apply demo_valid_option; lia).
  split; [exact Hv|].
  apply actor_target_matches_critic; [exact Hv| |];
    rewrite demo_width_Q; lia.
Defined.

Lemma critic_loss_bounds_witness :
  0 <= clip_delta demo_args /\
  valid_batch (demo_heap (Obs:=unit) tt) Live Target [transition tt 0 0 true tt] /\
  exists loss h',
    critic_loss (demo_heap (Obs:=unit) tt) Live Target
      (batch_of [transition tt 0 0 true tt]) (live_optim shift_Q) demo_args =
    OK (loss, h') /\ 0 <= loss.
Proof.
  assert (Hc : 0 <= clip_delta demo_args) by (simpl; lra).
  assert (Hv : valid_batch (demo_heap (Obs:=unit) tt) Live Target
                 [transition tt 0 0 true tt])
    by (apply demo_valid_batch; intros t [<- | []]; simpl; lia).
  split; [exact Hc|]. split; [exact Hv|].
  destruct (critic_loss_bounds (demo_heap (Obs:=unit) tt) Live Target
              [transition tt 0 0 true tt] (live_optim shift_Q) demo_args Hc
              ltac:(discriminate) Hv) as (loss & h' & E & H0 & _).
  exists loss, h'. split; [exact E|exact H0].
Defined.

Lemma critic_loss_additive_witness :
  valid_batch (demo_heap (Obs:=unit) tt) Live Target [transition tt 0 0 true tt] /\
  valid_batch (demo_heap (Obs:=unit) tt) Live Target [transition tt 1 1 false tt] /\
  exists l1 l2 h1 h2 h12,
    critic_loss (demo_heap (Obs:=unit) tt) Live Target
      (batch_of [transition tt 0 0 true tt]) (live_optim shift_Q) demo_args =
    OK (l1, h1) /\
    critic_loss (demo_heap (Obs:=unit) tt) Live Target
      (batch_of [transition tt 1 1 false tt]) (live_optim shift_Q) demo_args =
    OK (l2, h2) /\
    critic_loss (demo_heap (Obs:=unit) tt) Live Target
      (batch_of [transition tt 0 0 true tt; transition tt 1 1 false tt])
      (live_optim shift_Q) demo_args = OK (l1 + l2, h12).
Proof.
  assert (Hv1 : valid_batch (demo_heap (Obs:=unit) tt) Live Target
                  [transition tt 0 0 true tt])
    by (apply demo_valid_batch; intros t [<- | []]; simpl; lia).
  assert (Hv2 : valid_batch (demo_heap (Obs:=unit) tt) Live Target
                  [transition tt 1 1 false tt])
    by (apply demo_valid_batch; intros t [<- | []]; simpl; lia).
  split; [exact Hv1|]. split; [exact Hv2|].
  exact (critic_loss_additive (demo_heap (Obs:=unit) tt) Live Target
           [transition tt 0 0 true tt] [transition tt 1 1 false tt]
           (live_optim shift_Q) demo_args ltac:(discriminate) ltac:(discriminate)
           Hv1 Hv2).
Defined.

Lemma actor_update_spares_critic_heads_witness :
  Live <> Target /\
  (forall p, In p (param_groups (Obs:=unit) (live_optim shift_Q)) -> fst p = Live) /\
  exists v h',
    actor_loss (demo_heap (Obs:=unit) tt) tt 0
      (Tensor (T1 [- ln 2]) [(Live, OptionsW)]) (Tensor (T1 [ln 2]) [(Live, OptionsW)])
      1 false tt Live Target (live_optim shift_Q) demo_args = OK (v, h') /\
    modules h' Target = demo_module /\
    has_grad h' (Live, QHead) = false /\
    has_grad h' (Live, Terminations) = true.
Proof.
  assert (Hne : Live <> Target) by discriminate.
  assert (Hb : forall p, In p (param_groups (Obs:=unit) (live_optim shift_Q)) ->
                         fst p = Live).
  { intros p Hp. cbn in Hp. intuition (subst; reflexivity). }
  split; [exact Hne|]. split; [exact Hb|].
  destruct (actor_loss_value (demo_heap (Obs:=unit) tt) tt 0 (- ln 2) (ln 2)
              [(Live, OptionsW)] [(Live, OptionsW)] 1 false tt Live Target
              (live_optim shift_Q) demo_args) as (h' & E);
    [apply demo_valid_option; lia | rewrite demo_width_Q; lia
     | rewrite demo_width_Q; lia |].
  eexists. exists h'. split; [exact E|].
  assert (Hg : forall p, In p ([(Live, OptionsW)] ++ [(Live, OptionsW)]) ->
                         fst p = Live /\ snd p <> QHead).
  { intros p Hp. simpl in Hp.
    destruct Hp as [<- | [<- | []]]; cbn [fst snd]; split;
      solve [reflexivity | discriminate]. }
  destruct (actor_update_spares_critic_heads (demo_heap (Obs:=unit) tt) tt 0
              (Tensor (T1 [- ln 2]) [(Live, OptionsW)])
              (Tensor (T1 [ln 2]) [(Live, OptionsW)]) 1 false tt Live Target
              (live_optim shift_Q) demo_args _ h' Hne Hb Hg E)
    as (Hm & _ & Hq & Ht & _).
  split; [exact Hm|]. split; [exact Hq|exact Ht].
Defined.

Lemma actor_termination_part_bound_witness :
  valid_option (demo_heap (Obs:=unit) tt) Live Target 0 /\
  exists loss h',
    actor_loss (demo_heap (Obs:=unit) tt) tt 0
      (Tensor (T1 [- ln 2]) [(Live, OptionsW)]) (Tensor (T1 [ln 2]) [(Live, OptionsW)])
      1 false tt Live Target (live_optim shift_Q) demo_args = OK (loss, h').
Proof.
  assert (Hv : valid_option (demo_heap (Obs:=unit) tt) Live Target 0)
    by (apply demo_valid_option; lia).
  split; [exact Hv|].
  destruct (actor_termination_part_bound (demo_heap (Obs:=unit) tt) tt 0
              (- ln 2) (ln 2) [(Live, OptionsW)] [(Live, OptionsW)] 1 false tt
              Live Target (live_optim shift_Q) demo_args Hv)
    as (loss & h' & E & _); [rewrite demo_width_Q; lia..|].
  exists loss, h'. exact E.
Defined.
